(** * webmail-server: the request handlers of the mail REST API

    A shallow embedding of the express handlers of the server
    ([/get-emails], [/send-reply], [/mark-as-read], [/mark-as-unread],
    [/delete-email], [/move-to-folder], [/send-email] and the handlers of
    the session) together with the JavaScript primitives they rely on, and
    the properties of the specification that concern them.

    Conventions.
    - A JavaScript string is a sequence of code units; the model covers
      strings whose code units are below 256, a Rocq [ascii] standing for the
      code unit of the same number.
    - A JavaScript number that the handlers compute with is an integer of
      the exactly representable range and is modelled by [Z]; [NaN] is
      [None].
    - The handlers are written in continuation-passing style, every call of
      the mail client taking the callback that the source passes to it.
    - The handlers are run with the session established: the middleware
      has run, [getImap] and [getTransporter] return the clients.  The
      clients are a parameter of a run; a mail store gives them for the
      samples.  The session itself, with the middleware and the handlers
      that log in and out, is module [Auth]. *)

From Stdlib Require Import ZArith List String Ascii Bool Lia.
From Stdlib Require Import Sorting.Sorted Sorting.Permutation.
Import ListNotations.

Local Open Scope string_scope.
Local Open Scope Z_scope.

(** ** JavaScript primitives used by the handlers *)

Module JS.

(** [String.prototype.toLowerCase] on code units below 256: the letters
    [A]-[Z] and the Latin-1 capitals U+00C0..U+00DE (U+00D7 excepted) move
    up by 32, every other code unit is kept. *)
Definition lowerChar (c : ascii) : ascii :=
  let n := nat_of_ascii c in
  if ((65 <=? n) && (n <=? 90))%nat then ascii_of_nat (n + 32)
  else if ((192 <=? n) && (n <=? 222) && negb (n =? 215))%nat
       then ascii_of_nat (n + 32)
  else c.

Fixpoint toLowerCase (s : string) : string :=
  match s with
  | EmptyString => EmptyString
  | String c r => String (lowerChar c) (toLowerCase r)
  end.

(** [s.startsWith(p)] *)
Definition startsWith (s p : string) : bool := String.prefix p s.

(** [s.includes(sub)]: [sub] occurs in [s] at some position. *)
Fixpoint includes (s sub : string) : bool :=
  String.prefix sub s ||
  match s with
  | EmptyString => false
  | String _ r => includes r sub
  end.

(** White space skipped by [parseInt] (TAB, LF, VT, FF, CR, SP, NBSP). *)
Definition isWhiteSpace (c : ascii) : bool :=
  let n := nat_of_ascii c in
  (((9 <=? n) && (n <=? 13)) || (n =? 32) || (n =? 160))%nat.

Fixpoint trimStart (s : string) : string :=
  match s with
  | EmptyString => EmptyString
  | String c r => if isWhiteSpace c then trimStart r else s
  end.

(** Value of a code unit as a digit, letters counting from 10. *)
Definition digitValue (c : ascii) : option Z :=
  let n := Z.of_nat (nat_of_ascii c) in
  if (48 <=? n) && (n <=? 57) then Some (n - 48)
  else if (97 <=? n) && (n <=? 122) then Some (n - 87)
  else if (65 <=? n) && (n <=? 90) then Some (n - 55)
  else None.

Definition radixDigit (R : Z) (c : ascii) : option Z :=
  match digitValue c with
  | Some v => if v <? R then Some v else None
  | None => None
  end.

(** The longest prefix of radix-[R] digits, read as a number; [acc] is
    [None] as long as no digit was read. *)
Fixpoint readDigits (R : Z) (s : string) (acc : option Z) : option Z :=
  match s with
  | EmptyString => acc
  | String c r =>
      match radixDigit R c with
      | Some v =>
          readDigits R r
            (Some (match acc with Some a => a * R + v | None => v end))
      | None => acc
      end
  end.

(** [parseInt(s)] without a radix: leading white space, an optional sign,
    an optional [0x]/[0X] prefix selecting radix 16, then digits.  [None]
    is [NaN].  The number is the one that the digits denote: it is the
    number of the program as long as its size is at most 2^53, beyond
    which the program rounds. *)
Definition parseInt (s : string) : option Z :=
  let S0 := trimStart s in
  let '(sign, S1) :=
    match S0 with
    | String "-" r => (-1, r)
    | String "+" r => (1, r)
    | _ => (1, S0)
    end in
  let '(R, S2) :=
    match S1 with
    | String "0" (String "x" r) => (16, r)
    | String "0" (String "X" r) => (16, r)
    | _ => (10, S1)
    end in
  match readDigits R S2 None with
  | Some m => Some (sign * m)
  | None => None
  end.

(** [parseInt(v)] of a query parameter: an absent parameter is
    [undefined], which [parseInt] reads as the text "undefined". *)
Definition parseIntParam (v : option string) : option Z :=
  match v with
  | Some s => parseInt s
  | None => parseInt "undefined"
  end.

(** [n || d] on numbers: [NaN] and zero are falsy. *)
Definition numOr (n : option Z) (d : Z) : Z :=
  match n with
  | Some 0 => d
  | Some z => z
  | None => d
  end.

(** [s || d] on an optional string: [undefined] and the empty string are
    falsy. *)
Definition strOr (s : option string) (d : string) : string :=
  match s with
  | Some EmptyString => d
  | Some v => v
  | None => d
  end.

(** Interpolation of a possibly undefined value in a template literal. *)
Definition show (s : option string) : string :=
  match s with
  | Some v => v
  | None => "undefined"
  end.

(** A relative index of [slice] made absolute: a negative index counts from
    the end, and the result is clamped to [0 .. len]. *)
Definition relIndex (len i : Z) : Z :=
  if i <? 0 then Z.max (len + i) 0 else Z.min i len.

(** [l.slice(start, end)] *)
Definition slice {A : Type} (l : list A) (start stop : Z) : list A :=
  let len := Z.of_nat (List.length l) in
  let k := relIndex len start in
  let final := relIndex len stop in
  firstn (Z.to_nat (final - k)) (skipn (Z.to_nat k) l).

(** [Math.ceil(n / d)] for integers [n] and [d], [d] not zero. *)
Definition ceilDiv (n d : Z) : Z := - ((- n) / d).

(** [l.sort(cmp)] for a comparator returning a number: an element is put
    after those elements of the sorted rest that [cmp] does not place
    after it. *)
Fixpoint insertBy (cmp : Z -> Z -> Z) (x : Z) (l : list Z) : list Z :=
  match l with
  | [] => [x]
  | y :: r => if cmp x y <=? 0 then x :: l else y :: insertBy cmp x r
  end.

Fixpoint sort (cmp : Z -> Z -> Z) (l : list Z) : list Z :=
  match l with
  | [] => []
  | x :: r => insertBy cmp x (sort cmp r)
  end.

End JS.

(** ** Data of the server *)

(** What [simpleParser] yields for a raw message.  A header that the
    message lacks is [undefined]; [from] and [to] stand for [from.text] and
    [to.text], and [date] for the text of the date. *)
Record ParsedMail := {
  from : option string;
  to : option string;
  subject : option string;
  date : option string;
  text : option string;
  textAsHtml : option string;
  messageId : option string
}.

(** The record that [/get-emails] returns for a message. *)
Record Email := {
  e_from : string;
  e_subject : string;
  e_date : string;
  e_text : string;
  e_html : string;
  e_to : string;
  e_id : Z;
  e_seen : bool
}.

(** The message handed to [transporter.sendMail]. *)
Record Mail := {
  m_from : string;
  m_to : string;
  m_subject : string;
  m_html : string;
  m_inReplyTo : option string
}.

(** The options of an IMAP fetch. *)
Record FetchOptions := {
  bodies : string;
  struct : bool;
  markSeen : bool;
  envelope : bool
}.

(** [fetchOptions]: the one set of options every fetch of the server uses;
    [markSeen] is off, so that fetching does not mark messages as seen. *)
Definition fetchOptions : FetchOptions :=
  {| bodies := ""; struct := true; markSeen := false; envelope := true |}.

(** What a fetch delivers for one message: the sequence number of the
    [message] event, the flags of its [attributes] event and the stream of
    its [body] event. *)
Record Fetched := {
  seqno : Z;
  attrs_flags : list string;
  stream : string
}.

Inductive Err := Error (msg : string).

(** The JSON body of a response. *)
Inductive Body :=
| Message (message : string)
| Page (emails : list Email) (page pageSize totalPages totalMessages : Z).

(** A parameter of the query string as express hands it over: absent, a
    text, or, for a repeated or a bracketed parameter
    ([?folder=a&folder=b], [?folder[k]=v]), an array or an object. *)
Inductive Param :=
| Absent
| Text (s : string)
| Structured.

(** The query of [/get-emails].  The handler uses [folder] as it is.  It
    hands [page] and [perPage] to [parseInt], which reads the text of its
    argument: they are given by that text (for a repeated parameter, the
    values joined by commas), an absent parameter being [None]. *)
Record Query := {
  q_folder : Param;
  q_page : option string;
  q_perPage : option string
}.

(** [req.query.folder || "INBOX"]: a text, or [None] for an array or an
    object, which are truthy and are kept. *)
Definition folder_or_inbox (p : Param) : option string :=
  match p with
  | Absent => Some "INBOX"
  | Text EmptyString => Some "INBOX"
  | Text s => Some s
  | Structured => None
  end.

(** ** Handlers as programs

    A handler is a tree of the calls it makes: every call of the mail
    client or of the transporter carries the callback of the source as its
    continuation, applied to what the call reports. *)
Inductive prog : Type :=
| Done
    (* nothing more is done *)
| Uncaught
    (* an exception raised inside a callback, where no handler catches it *)
| console_log (k : prog)
| console_error (k : prog)
| res_json (status : Z) (b : Body) (k : prog)
    (* res.status(status).json(b) *)
| set_selectedFolder (name : string) (k : prog)
| imap_getBoxes (cb : Err + list string -> prog)
| imap_openBox (name : string) (openReadOnly : bool) (cb : option Err -> prog)
| imap_search (cb : Err + list Z -> prog)
| imap_fetch (ids : list Z) (o : FetchOptions) (cb : Err + list Fetched -> prog)
    (* [inl]: the call throws, inside the try block around it; [inr]: the
       messages of the [message] events of the fetch *)
| fetch_once_end (cb : option Err -> prog)
    (* what the fetch emits after its messages: [end] ([None]), for which
       the callback is registered, or [error] *)
| imap_seq_fetch (id : Z) (o : FetchOptions) (cb : option Fetched -> prog)
    (* [None]: no [message] event *)
| imap_seq_addFlags (id : Z) (flag : string) (cb : option Err -> prog)
| imap_seq_delFlags (id : Z) (flag : string) (cb : option Err -> prog)
| imap_expunge (cb : option Err -> prog)
| imap_append (rawMessage : string) (mailbox : string) (cb : option Err -> prog)
| transporter_sendMail (m : Mail) (cb : option Err -> prog).

Definition CRLF : string := String "013" (String "010" EmptyString).

(** The flag names, as the source writes them. *)
Definition Seen : string := "\Seen".
Definition Deleted : string := "\Deleted".

(** [flags.includes(f)] *)
Definition flag_in (f : string) (flags : list string) : bool :=
  existsb (String.eqb f) flags.

(** Subject of a reply: "Re: " is put in front unless the subject starts
    with it. *)
Definition reply_subject (s : string) : string :=
  if JS.startsWith s "Re: " then s else "Re: " ++ s.

(** The folder that [/get-emails] selects among the keys of [boxes]. *)
Definition find_folder (folder : string) (keys : list string) : option string :=
  find (fun key => JS.includes (JS.toLowerCase key) (JS.toLowerCase folder))
       keys.

(** The comparator of the listing, [(a, b) => b - a]: newest first. *)
Definition newest_first (a b : Z) : Z := b - a.

(** The identifiers that [/get-emails] fetches. *)
Definition page_slice (results : list Z) (page pageSize : Z) : list Z :=
  let sorted := JS.sort newest_first results in
  JS.slice sorted ((page - 1) * pageSize) ((page - 1) * pageSize + pageSize).

(** ** The handlers *)

Section Handlers.

(** The message parser ([None]: the parser rejects) and the current time
    are taken from outside. *)
Variable simpleParser : string -> option ParsedMail.
Variable now : string.

(** One fetched message made into the record of the response. *)
Definition to_email (m : Fetched) : option Email :=
  match simpleParser (stream m) with
  | None => None
  | Some parsed =>
      Some {| e_from := JS.strOr (from parsed) "N/A";
              e_subject := JS.strOr (subject parsed) "N/A";
              e_date := JS.strOr (date parsed) now;
              e_text := JS.strOr (text parsed) "N/A";
              e_html := JS.strOr (textAsHtml parsed) "N/A";
              e_to := JS.strOr (to parsed) "N/A";
              e_id := seqno m;
              e_seen := flag_in Seen (attrs_flags m) |}
  end.

(** [Promise.all] over the messages, in the order of [messages]. *)
Fixpoint all_emails (messages : list Fetched) : option (list Email) :=
  match messages with
  | [] => Some []
  | m :: r =>
      match to_email m, all_emails r with
      | Some e, Some es => Some (e :: es)
      | _, _ => None
      end
  end.

(** GET /get-emails *)
Definition get_emails (q : Query) : prog :=
  let folder := folder_or_inbox (q_folder q) in
  console_log (
  imap_getBoxes (fun r =>
    match r with
    | inl _ =>
        console_error (res_json 500 (Message "Error fetching mailboxes") Done)
    | inr boxes =>
        console_log (
        match folder with
        | None =>
            (* [folder.toLowerCase] is not a function: the callback of
               [find] throws at the first key *)
            match boxes with
            | [] => res_json 404 (Message "Folder not found") Done
            | _ :: _ => Uncaught
            end
        | Some folder =>
        match find_folder folder boxes with
        | None | Some EmptyString =>
            res_json 404 (Message "Folder not found") Done
        | Some selected =>
            set_selectedFolder selected (
            imap_openBox selected true (fun err =>
              match err with
              | Some _ =>
                  console_error
                    (res_json 500 (Message "Error opening mailbox") Done)
              | None =>
                  let page := JS.numOr (JS.parseIntParam (q_page q)) 1 in
                  let pageSize :=
                    JS.numOr (JS.parseIntParam (q_perPage q)) 10 in
                  imap_search (fun r =>
                    match r with
                    | inl _ =>
                        console_error
                          (res_json 500 (Message "Error fetching emails") Done)
                    | inr results =>
                        let totalMessages := Z.of_nat (List.length results) in
                        let totalPages := JS.ceilDiv totalMessages pageSize in
                        let sliced := page_slice results page pageSize in
                        imap_fetch sliced fetchOptions (fun r =>
                          match r with
                          | inl _ =>
                              console_error
                                (res_json 500
                                   (Message "Error fetching emails") Done)
                          | inr messages =>
                              fetch_once_end (fun err =>
                                match err with
                                | Some _ =>
                                    (* an [error] event without a listener *)
                                    Uncaught
                                | None =>
                                    match all_emails messages with
                                    | Some emails =>
                                        res_json 200
                                          (Page emails page pageSize
                                                totalPages totalMessages)
                                          Done
                                    | None => Uncaught
                                    end
                                end)
                          end)
                    end)
              end))
        end
        end)
    end)).

(** The text of a reply: the answer, then the original quoted. *)
Definition reply_text (text0 : option string) (email : ParsedMail)
    (fromText : string) : string :=
  JS.show text0 ++ "<br/><br/>On " ++ JS.show (date email) ++ ", " ++ fromText
  ++ " wrote:<br/><br/>" ++ JS.show (textAsHtml email).

(** The copy of a reply that is appended to the Sent mailbox. *)
Definition raw_message (fromText toText subj replyText : string) : string :=
  "From: " ++ fromText ++ CRLF ++
  "To: " ++ toText ++ CRLF ++
  "Subject: " ++ subj ++ CRLF ++
  "Content-Type: text/html; charset=utf-8" ++ CRLF ++ CRLF ++
  replyText ++ CRLF.

(** The reply that is sent. *)
Definition replyEmail (user fromText subj replyText : string)
    (inReplyTo : option string) : Mail :=
  {| m_from := user ++ "@localhost";
     m_to := fromText;
     m_subject := subj;
     m_html := replyText;
     m_inReplyTo := inReplyTo |}.

(** The callback of [sendMail] in /send-reply. *)
Definition reply_sent (email : ParsedMail) (fromText subj replyText : string)
    (err : option Err) : prog :=
  match err with
  | Some _ =>
      console_error (res_json 500 (Message "Error sending reply") Done)
  | None =>
      res_json 200 (Message "Reply sent") (
      match to email with
      | None => Uncaught
      | Some toText =>
          imap_append (raw_message fromText toText subj replyText) "Sent"
            (fun err =>
               match err with
               | Some _ => console_error Done
               | None => Done
               end)
      end)
  end.

(** The [body] callback of /send-reply. *)
Definition reply_body (user : string) (text0 : option string)
    (m : Fetched) : prog :=
  match simpleParser (stream m) with
  | None => Uncaught
  | Some email =>
      match from email with
      | None => Uncaught
      | Some fromText =>
          let replyText := reply_text text0 email fromText in
          match subject email with
          | None => Uncaught
          | Some s =>
              let subj := reply_subject s in
              transporter_sendMail
                (replyEmail user fromText subj replyText (messageId email))
                (reply_sent email fromText subj replyText)
          end
      end
  end.

(** POST /send-reply *)
Definition send_reply (selectedFolder user : string) (text0 : option string)
    (id : Z) : prog :=
  imap_openBox selectedFolder false (fun err =>
    match err with
    | Some _ =>
        console_error (res_json 500 (Message "Error opening mailbox") Done)
    | None =>
        imap_seq_fetch id fetchOptions (fun msg =>
          match msg with
          | Some m => reply_body user text0 m
          | None => Done
          end)
    end).

End Handlers.

(** POST /mark-as-unread *)
Definition mark_as_unread (selectedFolder : string) (id : Z) : prog :=
  imap_openBox selectedFolder true (fun err =>
    match err with
    | Some _ =>
        console_error (res_json 500 (Message "Error opening mailbox") Done)
    | None =>
        imap_seq_delFlags id Seen (fun err =>
          match err with
          | Some _ =>
              console_error
                (res_json 500 (Message "Error marking email as unread") Done)
          | None => res_json 200 (Message "Email marked as unread") Done
          end)
    end).

(** POST /mark-as-read *)
Definition mark_as_read (selectedFolder : string) (id : Z) : prog :=
  imap_openBox selectedFolder true (fun err =>
    match err with
    | Some _ =>
        console_error (res_json 500 (Message "Error opening mailbox") Done)
    | None =>
        imap_seq_addFlags id Seen (fun err =>
          match err with
          | Some _ =>
              console_error
                (res_json 500 (Message "Error marking email as seen") Done)
          | None => res_json 200 (Message "Email marked as seen") Done
          end)
    end).

(** POST /delete-email *)
Definition delete_email (id : Z) : prog :=
  imap_openBox "Trash" false (fun err =>
    match err with
    | Some _ =>
        console_error (res_json 500 (Message "Error opening mailbox") Done)
    | None =>
        imap_seq_addFlags id Deleted (fun err =>
          match err with
          | Some _ =>
              console_error (res_json 500 (Message "Error deleting email") Done)
          | None =>
              res_json 200 (Message "Email deleted") (
              imap_expunge (fun err =>
                match err with
                | Some _ =>
                    (* the response was sent: this call of [res.json]
                       throws, inside the callback *)
                    console_error
                      (res_json 500 (Message "Error deleting email")
                         Uncaught)
                | None => Done
                end))
          end)
    end).

(** ** Running a handler *)

(** What a run does, in order: what it writes to the console, its calls of
    [res.status(..).json(..)], the exceptions that nothing catches, and its
    calls of the clients with what they reported. *)
Inductive event :=
| Log
| LogError
| Response (status : Z) (b : Body)
| Exception
| GetBoxes (r : Err + list string)
| OpenBox (name : string) (openReadOnly : bool) (r : option Err)
| SearchAll (r : Err + list Z)
| Fetch (ids : list Z) (o : FetchOptions) (r : Err + list Fetched)
| FetchError (e : Err)
| SeqFetch (id : Z) (o : FetchOptions) (r : option Fetched)
| AddFlags (id : Z) (flag : string) (r : option Err)
| DelFlags (id : Z) (flag : string) (r : option Err)
| Expunge (r : option Err)
| Append (rawMessage mailbox : string) (r : option Err)
| SendMail (m : Mail) (r : option Err).

(** The clients that the handlers call: the IMAP connection of [getImap]
    and the transporter of [getTransporter].  Their libraries are outside
    the repository, so that they are taken as they come: a call returns
    what it reports to its callback, and the state [W] of what is behind the
    clients after it.  [fetch] gives the messages that the fetch delivers,
    and [fetch_end] what the fetch emits after them: [end], or [error]. *)
Module Client.

Record t (W : Type) := {
  getBoxes : W -> (Err + list string) * W;
  openBox : string -> bool -> W -> option Err * W;
  search : W -> (Err + list Z) * W;
  fetch : list Z -> FetchOptions -> W -> (Err + list Fetched) * W;
  fetch_end : W -> option Err;
  seq_fetch : Z -> FetchOptions -> W -> option Fetched * W;
  seq_addFlags : Z -> string -> W -> option Err * W;
  seq_delFlags : Z -> string -> W -> option Err * W;
  expunge : W -> option Err * W;
  append : string -> string -> W -> option Err * W;
  sendMail : Mail -> W -> option Err * W
}.

Arguments getBoxes {W} _ _.
Arguments openBox {W} _ _ _ _.
Arguments search {W} _ _.
Arguments fetch {W} _ _ _ _.
Arguments fetch_end {W} _ _.
Arguments seq_fetch {W} _ _ _ _.
Arguments seq_addFlags {W} _ _ _ _.
Arguments seq_delFlags {W} _ _ _ _.
Arguments expunge {W} _ _.
Arguments append {W} _ _ _ _.
Arguments sendMail {W} _ _ _.

End Client.

(** The state of the server: the module variable [selectedFolder] and the
    state behind the clients of the session. *)
Record State (W : Type) := {
  selectedFolder : string;
  world : W
}.

Arguments selectedFolder {W} _.
Arguments world {W} _.

Section Run.

Context {W : Type} (imap : Client.t W).

Definition emit (e : event) (r : list event * State W)
    : list event * State W :=
  (e :: fst r, snd r).

Fixpoint run (p : prog) (s : State W) : list event * State W :=
  match p with
  | Done => ([], s)
  | Uncaught => ([Exception], s)
  | console_log k => emit Log (run k s)
  | console_error k => emit LogError (run k s)
  | res_json status b k => emit (Response status b) (run k s)
  | set_selectedFolder name k =>
      run k {| selectedFolder := name; world := world s |}
  | imap_getBoxes cb =>
      let '(r, w1) := Client.getBoxes imap (world s) in
      emit (GetBoxes r)
        (run (cb r) {| selectedFolder := selectedFolder s; world := w1 |})
  | imap_openBox name ro cb =>
      let '(r, w1) := Client.openBox imap name ro (world s) in
      emit (OpenBox name ro r)
        (run (cb r) {| selectedFolder := selectedFolder s; world := w1 |})
  | imap_search cb =>
      let '(r, w1) := Client.search imap (world s) in
      emit (SearchAll r)
        (run (cb r) {| selectedFolder := selectedFolder s; world := w1 |})
  | imap_fetch ids o cb =>
      let '(r, w1) := Client.fetch imap ids o (world s) in
      emit (Fetch ids o r)
        (run (cb r) {| selectedFolder := selectedFolder s; world := w1 |})
  | fetch_once_end cb =>
      match Client.fetch_end imap (world s) with
      | Some e => emit (FetchError e) (run (cb (Some e)) s)
      | None => run (cb None) s
      end
  | imap_seq_fetch id o cb =>
      let '(r, w1) := Client.seq_fetch imap id o (world s) in
      emit (SeqFetch id o r)
        (run (cb r) {| selectedFolder := selectedFolder s; world := w1 |})
  | imap_seq_addFlags id flag cb =>
      let '(r, w1) := Client.seq_addFlags imap id flag (world s) in
      emit (AddFlags id flag r)
        (run (cb r) {| selectedFolder := selectedFolder s; world := w1 |})
  | imap_seq_delFlags id flag cb =>
      let '(r, w1) := Client.seq_delFlags imap id flag (world s) in
      emit (DelFlags id flag r)
        (run (cb r) {| selectedFolder := selectedFolder s; world := w1 |})
  | imap_expunge cb =>
      let '(r, w1) := Client.expunge imap (world s) in
      emit (Expunge r)
        (run (cb r) {| selectedFolder := selectedFolder s; world := w1 |})
  | imap_append rawMessage mailbox cb =>
      let '(r, w1) := Client.append imap rawMessage mailbox (world s) in
      emit (Append rawMessage mailbox r)
        (run (cb r) {| selectedFolder := selectedFolder s; world := w1 |})
  | transporter_sendMail m cb =>
      let '(r, w1) := Client.sendMail imap m (world s) in
      emit (SendMail m r)
        (run (cb r) {| selectedFolder := selectedFolder s; world := w1 |})
  end.

(** The requests of the mutation engine, read with the selected folder of
    the state. *)
Definition markRead (id : Z) (s : State W) : list event * State W :=
  run (mark_as_read (selectedFolder s) id) s.

Definition markUnread (id : Z) (s : State W) : list event * State W :=
  run (mark_as_unread (selectedFolder s) id) s.

Definition deleteMessage (id : Z) (s : State W) : list event * State W :=
  run (delete_email id) s.

End Run.

(** The responses of a run, in order; the client of the request receives
    the first, which sends the response: a later call of [res.json]
    throws. *)
Fixpoint responses (t : list event) : list (Z * Body) :=
  match t with
  | [] => []
  | Response status b :: r => (status, b) :: responses r
  | _ :: r => responses r
  end.

(** A call of the run that reported a failure to its callback, or
    threw. *)
Definition failed (e : event) : bool :=
  match e with
  | GetBoxes (inl _) | SearchAll (inl _) | Fetch _ _ (inl _) => true
  | OpenBox _ _ (Some _) | AddFlags _ _ (Some _) | DelFlags _ _ (Some _)
  | Expunge (Some _) | Append _ _ (Some _) | SendMail _ (Some _) => true
  | _ => false
  end.
(** ** The mail store behind the client

    The handlers reach the mailboxes through the IMAP client and send
    through the transporter; both come from libraries that are not part of
    the repository.  What they do is taken from the external-interfaces
    section of the specification. *)

(** Modelled from the spec: a message of a mailbox, with its unique
    identifier, its flags and its raw text. *)
Record Msg := {
  uid : Z;
  flags : list string;
  raw : string
}.

(** Modelled from the spec: the order in which a fetch delivers the
    messages asked for, which is the server's choice. *)
Inductive Delivery := AsRequested | MailboxOrder.

(** Modelled from the spec: the mail-protocol client and the outbound-send
    client as one store.  A mailbox is the list of its messages in sequence
    order, a message having the sequence number of its position, from 1. *)
Record World := {
  boxes : list (string * list Msg);
      (* the mailboxes, in the order of [Object.keys] *)
  opened : option (string * bool);
      (* the mailbox that is open, and whether it is open read-only *)
  outbox : list Mail;
      (* the messages sent, latest first *)
  faults : list (option Err);
      (* what goes wrong: the n-th call of a client fails with the n-th
         entry, when there is one *)
  delivery : Delivery;
  readOnlyEnforced : bool
      (* whether a mailbox that is open read-only refuses changes *)
}.

Definition with_boxes (w : World) (b : list (string * list Msg)) : World :=
  {| boxes := b; opened := opened w; outbox := outbox w; faults := faults w;
     delivery := delivery w; readOnlyEnforced := readOnlyEnforced w |}.

Definition with_opened (w : World) (o : option (string * bool)) : World :=
  {| boxes := boxes w; opened := o; outbox := outbox w; faults := faults w;
     delivery := delivery w; readOnlyEnforced := readOnlyEnforced w |}.

Definition with_outbox (w : World) (o : list Mail) : World :=
  {| boxes := boxes w; opened := opened w; outbox := o; faults := faults w;
     delivery := delivery w; readOnlyEnforced := readOnlyEnforced w |}.

Definition with_faults (w : World) (f : list (option Err)) : World :=
  {| boxes := boxes w; opened := opened w; outbox := outbox w; faults := f;
     delivery := delivery w; readOnlyEnforced := readOnlyEnforced w |}.

(** The fault of the next call, and the world the call then acts on. *)
Definition next_fault (w : World) : option Err * World :=
  match faults w with
  | [] => (None, w)
  | f :: r => (f, with_faults w r)
  end.

Fixpoint lookup_box (name : string) (b : list (string * list Msg))
    : option (list Msg) :=
  match b with
  | [] => None
  | (n, msgs) :: r => if String.eqb n name then Some msgs else lookup_box name r
  end.

Fixpoint update_box (name : string) (f : list Msg -> list Msg)
    (b : list (string * list Msg)) : list (string * list Msg) :=
  match b with
  | [] => []
  | (n, msgs) :: r =>
      if String.eqb n name then (n, f msgs) :: r
      else (n, msgs) :: update_box name f r
  end.

(** The open mailbox: its name, whether changes are possible, its
    messages. *)
Definition current (w : World) : option (string * bool * list Msg) :=
  match opened w with
  | None => None
  | Some (name, ro) =>
      match lookup_box name (boxes w) with
      | None => None
      | Some msgs => Some (name, negb (ro && readOnlyEnforced w), msgs)
      end
  end.

(** The messages of a mailbox with their sequence numbers. *)
Fixpoint numbered (n : Z) (msgs : list Msg) : list (Z * Msg) :=
  match msgs with
  | [] => []
  | m :: r => (n, m) :: numbered (n + 1) r
  end.

Definition fetched (nm : Z * Msg) : Fetched :=
  {| seqno := fst nm; attrs_flags := flags (snd nm); stream := raw (snd nm) |}.

Definition mem (x : Z) (l : list Z) : bool := existsb (Z.eqb x) l.

(** The messages with one of the identifiers [ids], in the order of
    delivery. *)
Definition select (d : Delivery) (ids : list Z) (msgs : list Msg)
    : list (Z * Msg) :=
  match d with
  | MailboxOrder => filter (fun nm => mem (uid (snd nm)) ids) (numbered 1 msgs)
  | AsRequested =>
      flat_map (fun i => filter (fun nm => uid (snd nm) =? i) (numbered 1 msgs))
               ids
  end.

Definition add_flag (f : string) (m : Msg) : Msg :=
  {| uid := uid m;
     flags := if flag_in f (flags m) then flags m else (flags m ++ [f])%list;
     raw := raw m |}.

Definition del_flag (f : string) (m : Msg) : Msg :=
  {| uid := uid m;
     flags := filter (fun g => negb (String.eqb f g)) (flags m);
     raw := raw m |}.

(** [g] applied to the message of sequence number [id]. *)
Definition at_seqno (id : Z) (g : Msg -> Msg) (msgs : list Msg) : list Msg :=
  map (fun nm => if fst nm =? id then g (snd nm) else snd nm) (numbered 1 msgs).

Definition in_range (id : Z) (msgs : list Msg) : bool :=
  (1 <=? id) && (id <=? Z.of_nat (List.length msgs)).

Definition next_uid (msgs : list Msg) : Z :=
  1 + fold_right Z.max 0 (map uid msgs).

(** Modelled from the spec: list-folders, [imap.getBoxes]. *)
Definition w_getBoxes (w : World) : (Err + list string) * World :=
  match next_fault w with
  | (Some e, w1) => (inl e, w1)
  | (None, w1) => (inr (map fst (boxes w1)), w1)
  end.

(** Modelled from the spec: open-folder(readonly), [imap.openBox]. *)
Definition w_openBox (name : string) (openReadOnly : bool) (w : World)
    : option Err * World :=
  match next_fault w with
  | (Some e, w1) => (Some e, w1)
  | (None, w1) =>
      match lookup_box name (boxes w1) with
      | Some _ => (None, with_opened w1 (Some (name, openReadOnly)))
      | None => (Some (Error "Mailbox doesn't exist"), with_opened w1 None)
      end
  end.

(** Modelled from the spec: list-identifiers without a filter,
    [imap.search([])]: the identifiers of the open mailbox. *)
Definition w_search (w : World) : (Err + list Z) * World :=
  match next_fault w with
  | (Some e, w1) => (inl e, w1)
  | (None, w1) =>
      match current w1 with
      | Some (_, _, msgs) => (inr (map uid msgs), w1)
      | None => (inl (Error "No mailbox is currently selected"), w1)
      end
  end.

(** Modelled from the spec: fetch-bodies(ids), [imap.fetch]: a message with
    its flags and its stream for each of the identifiers; the messages are
    marked seen when the option asks for it and the mailbox takes
    changes. *)
Definition w_fetch (ids : list Z) (o : FetchOptions) (w : World)
    : (Err + list Fetched) * World :=
  match next_fault w with
  | (Some e, w1) => (inl e, w1)
  | (None, w1) =>
      match current w1 with
      | Some (name, writable, msgs) =>
          (inr (map fetched (select (delivery w1) ids msgs)),
           if markSeen o && writable
           then with_boxes w1
                  (update_box name
                     (map (fun m => if mem (uid m) ids then add_flag Seen m
                                    else m))
                     (boxes w1))
           else w1)
      | None => (inl (Error "No mailbox is currently selected"), w1)
      end
  end.

(** Modelled from the spec: fetch-bodies of one sequence number,
    [imap.seq.fetch]. *)
Definition w_seq_fetch (id : Z) (o : FetchOptions) (w : World)
    : option Fetched * World :=
  match next_fault w with
  | (Some e, w1) => (None, w1)
  | (None, w1) =>
      match current w1 with
      | Some (name, writable, msgs) =>
          (match filter (fun nm => fst nm =? id) (numbered 1 msgs) with
           | nm :: _ => Some (fetched nm)
           | [] => None
           end,
           if markSeen o && writable
           then with_boxes w1
                  (update_box name (at_seqno id (add_flag Seen)) (boxes w1))
           else w1)
      | None => (None, w1)
      end
  end.

(** Modelled from the spec: a change [g] of the flags of the message of
    sequence number [id] in the open mailbox. *)
Definition w_store (id : Z) (g : Msg -> Msg) (w : World)
    : option Err * World :=
  match next_fault w with
  | (Some e, w1) => (Some e, w1)
  | (None, w1) =>
      match current w1 with
      | Some (name, writable, msgs) =>
          if negb writable then (Some (Error "Mailbox is read-only"), w1)
          else if negb (in_range id msgs)
               then (Some (Error "Invalid messageset"), w1)
          else (None,
                with_boxes w1 (update_box name (at_seqno id g) (boxes w1)))
      | None => (Some (Error "No mailbox is currently selected"), w1)
      end
  end.

(** Modelled from the spec: add-flag(id, flag), [imap.seq.addFlags]. *)
Definition w_addFlags (id : Z) (flag : string) : World -> option Err * World :=
  w_store id (add_flag flag).

(** Modelled from the spec: remove-flag(id, flag), [imap.seq.delFlags]. *)
Definition w_delFlags (id : Z) (flag : string) : World -> option Err * World :=
  w_store id (del_flag flag).

(** Modelled from the spec: expunge, [imap.expunge]: the messages flagged
    as deleted leave the open mailbox. *)
Definition w_expunge (w : World) : option Err * World :=
  match next_fault w with
  | (Some e, w1) => (Some e, w1)
  | (None, w1) =>
      match current w1 with
      | Some (name, writable, msgs) =>
          if negb writable then (Some (Error "Mailbox is read-only"), w1)
          else (None,
                with_boxes w1
                  (update_box name
                     (filter (fun m => negb (flag_in Deleted (flags m))))
                     (boxes w1)))
      | None => (Some (Error "No mailbox is currently selected"), w1)
      end
  end.

(** Modelled from the spec: append(raw, folder), [imap.append]. *)
Definition w_append (rawMessage mailbox : string) (w : World)
    : option Err * World :=
  match next_fault w with
  | (Some e, w1) => (Some e, w1)
  | (None, w1) =>
      match lookup_box mailbox (boxes w1) with
      | Some msgs =>
          (None,
           with_boxes w1
             (update_box mailbox
                (fun l => (l ++ [{| uid := next_uid l; flags := [];
                                    raw := rawMessage |}])%list)
                (boxes w1)))
      | None => (Some (Error "Mailbox doesn't exist"), w1)
      end
  end.

(** Modelled from the spec: send(message), [transporter.sendMail]. *)
Definition w_sendMail (m : Mail) (w : World) : option Err * World :=
  match next_fault w with
  | (Some e, w1) => (Some e, w1)
  | (None, w1) => (None, with_outbox w1 (m :: outbox w1))
  end.


(** The clients of a session on this store. *)
Definition storeClient : Client.t World :=
  {| Client.getBoxes := w_getBoxes;
     Client.openBox := w_openBox;
     Client.search := w_search;
     Client.fetch := w_fetch;
     Client.fetch_end := fun _ => None;
     Client.seq_fetch := w_seq_fetch;
     Client.seq_addFlags := w_addFlags;
     Client.seq_delFlags := w_delFlags;
     Client.expunge := w_expunge;
     Client.append := w_append;
     Client.sendMail := w_sendMail |}.

(** Whether the message of sequence number [id] of mailbox [name] is seen;
    [None] when there is no such message. *)
Definition seen_flag (name : string) (id : Z) (w : World) : option bool :=
  match lookup_box name (boxes w) with
  | None => None
  | Some msgs =>
      match filter (fun nm => fst nm =? id) (numbered 1 msgs) with
      | nm :: _ => Some (flag_in Seen (flags (snd nm)))
      | [] => None
      end
  end.
(** ** Sample stores *)

(** A parser for the samples: the raw text is the subject, the sender and
    the receiver are fixed. *)
Definition sampleParser (s : string) : option ParsedMail :=
  Some {| from := Some "alice@localhost"; to := Some "bob@localhost";
          subject := Some s; date := None; text := None;
          textAsHtml := None; messageId := None |}.

(** [n] messages with the identifiers [k+1 .. k+n], none of them seen. *)
Fixpoint fresh (n : nat) (k : Z) : list Msg :=
  match n with
  | O => []
  | S n' => {| uid := k + 1; flags := []; raw := "hello" |} :: fresh n' (k + 1)
  end.

Definition sampleWorld (b : list (string * list Msg)) (d : Delivery) : World :=
  {| boxes := b; opened := None; outbox := []; faults := []; delivery := d;
     readOnlyEnforced := false |}.

Definition sampleState (b : list (string * list Msg)) (d : Delivery)
    : State World :=
  {| selectedFolder := "INBOX"; world := sampleWorld b d |}.

Definition query (folder page perPage : option string) : Query :=
  {| q_folder := match folder with Some s => Text s | None => Absent end;
     q_page := page; q_perPage := perPage |}.


(** A parser for a message that names no receiver. *)
Definition parserNoReceiver (s : string) : option ParsedMail :=
  Some {| from := Some "alice@localhost"; to := None;
          subject := Some s; date := None; text := None;
          textAsHtml := None; messageId := None |}.

(** A store whose [n]-th call of a client fails. *)
Fixpoint failing_at (n : nat) : list (option Err) :=
  match n with
  | O => []
  | S O => [Some (Error "failure")]
  | S n' => None :: failing_at n'
  end.

Definition failingState (b : list (string * list Msg)) (n : nat)
    : State World :=
  {| selectedFolder := "INBOX";
     world := with_faults (sampleWorld b AsRequested) (failing_at n) |}.
(** ** Notions of the properties *)

(** Descending order, equal neighbours allowed. *)
Definition descending (l : list Z) : Prop :=
  StronglySorted (fun a b => b <= a) l.

(** [folder] occurs in [key] when the case of letters is left aside. *)
Definition folder_matches (folder key : string) : Prop :=
  exists a b, JS.toLowerCase key = a ++ JS.toLowerCase folder ++ b.

(** The page and the page size that a query stands for. *)
Definition page_of (q : Query) : Z := JS.numOr (JS.parseIntParam (q_page q)) 1.
Definition pageSize_of (q : Query) : Z :=
  JS.numOr (JS.parseIntParam (q_perPage q)) 10.
Definition folder_of (q : Query) : string :=
  match folder_or_inbox (q_folder q) with
  | Some folder => folder
  | None => ""
  end.

Section Runs.

Context {W : Type} (imap : Client.t W).
Variable simpleParser : string -> option ParsedMail.
Variable now : string.

(** The runs of /get-emails, one case for each way the handler ends. *)
Inductive listing (q : Query) (s : State W)
    : list event -> State W -> Prop :=
| listing_no_boxes e w1 :
    Client.getBoxes imap (world s) = (inl e, w1) ->
    listing q s
      [Log; GetBoxes (inl e); LogError;
       Response 500 (Message "Error fetching mailboxes")]
      {| selectedFolder := selectedFolder s; world := w1 |}
| listing_not_found keys w1 :
    q_folder q <> Structured ->
    Client.getBoxes imap (world s) = (inr keys, w1) ->
    find_folder (folder_of q) keys = None \/
    find_folder (folder_of q) keys = Some "" ->
    listing q s
      [Log; GetBoxes (inr keys); Log;
       Response 404 (Message "Folder not found")]
      {| selectedFolder := selectedFolder s; world := w1 |}
| listing_not_opened keys w1 selected e w2 :
    q_folder q <> Structured ->
    Client.getBoxes imap (world s) = (inr keys, w1) ->
    find_folder (folder_of q) keys = Some selected -> selected <> "" ->
    Client.openBox imap selected true w1 = (Some e, w2) ->
    listing q s
      [Log; GetBoxes (inr keys); Log; OpenBox selected true (Some e);
       LogError; Response 500 (Message "Error opening mailbox")]
      {| selectedFolder := selected; world := w2 |}
| listing_no_search keys w1 selected w2 e w3 :
    q_folder q <> Structured ->
    Client.getBoxes imap (world s) = (inr keys, w1) ->
    find_folder (folder_of q) keys = Some selected -> selected <> "" ->
    Client.openBox imap selected true w1 = (None, w2) ->
    Client.search imap w2 = (inl e, w3) ->
    listing q s
      [Log; GetBoxes (inr keys); Log; OpenBox selected true None;
       SearchAll (inl e); LogError;
       Response 500 (Message "Error fetching emails")]
      {| selectedFolder := selected; world := w3 |}
| listing_no_fetch keys w1 selected w2 results w3 e w4 :
    q_folder q <> Structured ->
    Client.getBoxes imap (world s) = (inr keys, w1) ->
    find_folder (folder_of q) keys = Some selected -> selected <> "" ->
    Client.openBox imap selected true w1 = (None, w2) ->
    Client.search imap w2 = (inr results, w3) ->
    Client.fetch imap (page_slice results (page_of q) (pageSize_of q)) fetchOptions w3
      = (inl e, w4) ->
    listing q s
      [Log; GetBoxes (inr keys); Log; OpenBox selected true None;
       SearchAll (inr results);
       Fetch (page_slice results (page_of q) (pageSize_of q)) fetchOptions
             (inl e);
       LogError; Response 500 (Message "Error fetching emails")]
      {| selectedFolder := selected; world := w4 |}
| listing_no_text_empty w1 :
    Client.getBoxes imap (world s) = (inr [], w1) ->
    q_folder q = Structured ->
    listing q s
      [Log; GetBoxes (inr []); Log;
       Response 404 (Message "Folder not found")]
      {| selectedFolder := selectedFolder s; world := w1 |}
| listing_no_text key keys w1 :
    Client.getBoxes imap (world s) = (inr (key :: keys), w1) ->
    q_folder q = Structured ->
    listing q s
      [Log; GetBoxes (inr (key :: keys)); Log; Exception]
      {| selectedFolder := selectedFolder s; world := w1 |}
| listing_fetch_error keys w1 selected w2 results w3 messages w4 e :
    q_folder q <> Structured ->
    Client.getBoxes imap (world s) = (inr keys, w1) ->
    find_folder (folder_of q) keys = Some selected -> selected <> "" ->
    Client.openBox imap selected true w1 = (None, w2) ->
    Client.search imap w2 = (inr results, w3) ->
    Client.fetch imap (page_slice results (page_of q) (pageSize_of q)) fetchOptions w3
      = (inr messages, w4) ->
    Client.fetch_end imap w4 = Some e ->
    listing q s
      [Log; GetBoxes (inr keys); Log; OpenBox selected true None;
       SearchAll (inr results);
       Fetch (page_slice results (page_of q) (pageSize_of q)) fetchOptions
             (inr messages);
       FetchError e; Exception]
      {| selectedFolder := selected; world := w4 |}
| listing_no_parse keys w1 selected w2 results w3 messages w4 :
    q_folder q <> Structured ->
    Client.getBoxes imap (world s) = (inr keys, w1) ->
    find_folder (folder_of q) keys = Some selected -> selected <> "" ->
    Client.openBox imap selected true w1 = (None, w2) ->
    Client.search imap w2 = (inr results, w3) ->
    Client.fetch imap (page_slice results (page_of q) (pageSize_of q)) fetchOptions w3
      = (inr messages, w4) ->
    Client.fetch_end imap w4 = None ->
    all_emails simpleParser now messages = None ->
    listing q s
      [Log; GetBoxes (inr keys); Log; OpenBox selected true None;
       SearchAll (inr results);
       Fetch (page_slice results (page_of q) (pageSize_of q)) fetchOptions
             (inr messages);
       Exception]
      {| selectedFolder := selected; world := w4 |}
| listing_page keys w1 selected w2 results w3 messages w4 emails :
    q_folder q <> Structured ->
    Client.getBoxes imap (world s) = (inr keys, w1) ->
    find_folder (folder_of q) keys = Some selected -> selected <> "" ->
    Client.openBox imap selected true w1 = (None, w2) ->
    Client.search imap w2 = (inr results, w3) ->
    Client.fetch imap (page_slice results (page_of q) (pageSize_of q)) fetchOptions w3
      = (inr messages, w4) ->
    Client.fetch_end imap w4 = None ->
    all_emails simpleParser now messages = Some emails ->
    listing q s
      [Log; GetBoxes (inr keys); Log; OpenBox selected true None;
       SearchAll (inr results);
       Fetch (page_slice results (page_of q) (pageSize_of q)) fetchOptions
             (inr messages);
       Response 200
         (Page emails (page_of q) (pageSize_of q)
               (JS.ceilDiv (Z.of_nat (List.length results)) (pageSize_of q))
               (Z.of_nat (List.length results)))]
      {| selectedFolder := selected; world := w4 |}.


(** The runs of /send-reply. *)
Inductive replying (folder user : string) (text0 : option string) (id : Z)
    (s : State W) : list event -> State W -> Prop :=
| replying_not_opened e w1 :
    Client.openBox imap folder false (world s) = (Some e, w1) ->
    replying folder user text0 id s
      [OpenBox folder false (Some e); LogError;
       Response 500 (Message "Error opening mailbox")]
      {| selectedFolder := selectedFolder s; world := w1 |}
| replying_no_message w1 w2 :
    Client.openBox imap folder false (world s) = (None, w1) ->
    Client.seq_fetch imap id fetchOptions w1 = (None, w2) ->
    replying folder user text0 id s
      [OpenBox folder false None; SeqFetch id fetchOptions None]
      {| selectedFolder := selectedFolder s; world := w2 |}
| replying_not_composed w1 m w2 :
    Client.openBox imap folder false (world s) = (None, w1) ->
    Client.seq_fetch imap id fetchOptions w1 = (Some m, w2) ->
    (simpleParser (stream m) = None \/
     exists email, simpleParser (stream m) = Some email /\
                   (from email = None \/ subject email = None)) ->
    replying folder user text0 id s
      [OpenBox folder false None; SeqFetch id fetchOptions (Some m);
       Exception]
      {| selectedFolder := selectedFolder s; world := w2 |}
| replying_not_sent w1 m w2 email fromText subj e w3 :
    Client.openBox imap folder false (world s) = (None, w1) ->
    Client.seq_fetch imap id fetchOptions w1 = (Some m, w2) ->
    simpleParser (stream m) = Some email ->
    from email = Some fromText -> subject email = Some subj ->
    Client.sendMail imap
      (replyEmail user fromText (reply_subject subj)
         (reply_text text0 email fromText) (messageId email)) w2
      = (Some e, w3) ->
    replying folder user text0 id s
      [OpenBox folder false None; SeqFetch id fetchOptions (Some m);
       SendMail
         (replyEmail user fromText (reply_subject subj)
            (reply_text text0 email fromText) (messageId email)) (Some e);
       LogError; Response 500 (Message "Error sending reply")]
      {| selectedFolder := selectedFolder s; world := w3 |}
| replying_no_receiver w1 m w2 email fromText subj w3 :
    Client.openBox imap folder false (world s) = (None, w1) ->
    Client.seq_fetch imap id fetchOptions w1 = (Some m, w2) ->
    simpleParser (stream m) = Some email ->
    from email = Some fromText -> subject email = Some subj ->
    Client.sendMail imap
      (replyEmail user fromText (reply_subject subj)
         (reply_text text0 email fromText) (messageId email)) w2
      = (None, w3) ->
    to email = None ->
    replying folder user text0 id s
      [OpenBox folder false None; SeqFetch id fetchOptions (Some m);
       SendMail
         (replyEmail user fromText (reply_subject subj)
            (reply_text text0 email fromText) (messageId email)) None;
       Response 200 (Message "Reply sent"); Exception]
      {| selectedFolder := selectedFolder s; world := w3 |}
| replying_sent w1 m w2 email fromText subj w3 toText res w4 :
    Client.openBox imap folder false (world s) = (None, w1) ->
    Client.seq_fetch imap id fetchOptions w1 = (Some m, w2) ->
    simpleParser (stream m) = Some email ->
    from email = Some fromText -> subject email = Some subj ->
    Client.sendMail imap
      (replyEmail user fromText (reply_subject subj)
         (reply_text text0 email fromText) (messageId email)) w2
      = (None, w3) ->
    to email = Some toText ->
    Client.append imap
      (raw_message fromText toText (reply_subject subj)
         (reply_text text0 email fromText)) "Sent" w3
      = (res, w4) ->
    replying folder user text0 id s
      ([OpenBox folder false None; SeqFetch id fetchOptions (Some m);
        SendMail
          (replyEmail user fromText (reply_subject subj)
             (reply_text text0 email fromText) (messageId email)) None;
        Response 200 (Message "Reply sent");
        Append
          (raw_message fromText toText (reply_subject subj)
             (reply_text text0 email fromText)) "Sent" res]
       ++ match res with Some _ => [LogError] | None => [] end)
      {| selectedFolder := selectedFolder s; world := w4 |}.

End Runs.

(** A decimal digit occurs in the text. *)
Definition isDigit (c : ascii) : bool :=
  let n := nat_of_ascii c in ((48 <=? n) && (n <=? 57))%nat.

Fixpoint has_digit (s : string) : bool :=
  match s with
  | EmptyString => false
  | String c r => isDigit c || has_digit r
  end.

(** ** Notions of the listing *)







(** The numbers that the handler computes with for a page are integers
    that a JavaScript number holds exactly, of a size of at most 2^53, so
    that [parseInt] and the arithmetic of the bounds are those of [Z]. *)
Definition exact_paging (page pageSize : Z) : Prop :=
  Z.abs page <= 2 ^ 53 /\ Z.abs pageSize <= 2 ^ 53 /\
  Z.abs ((page - 1) * pageSize) <= 2 ^ 53 /\
  Z.abs ((page - 1) * pageSize + pageSize) <= 2 ^ 53.

(** ** Further notions *)

(** The pages of a listing, from page 1 to the last, [totalPages]. *)
Definition all_pages (results : list Z) (pageSize : Z) : list (list Z) :=
  map (fun i => page_slice results (Z.of_nat i) pageSize)
      (seq 1 (Z.to_nat (JS.ceilDiv (Z.of_nat (List.length results)) pageSize))).

(** ** The session: auth/authMethods and middleware/authMiddleware *)

Module Auth.

(** The configuration of an IMAP connection. *)
Record Config := {
  user : string;
  password : string;
  host : string;
  port : Z;
  tls : bool
}.

(** An IMAP connection as the session holds it: the configuration it was
    made with, which stays, and its [state], which the calls change. *)
Record Connection := {
  config : Config;
  state : string
}.

Definition with_state (c : Connection) (st : string) : Connection :=
  {| config := config c; state := st |}.

(** The transporter: what [nodemailer.createTransport] is asked for, and
    whether its [close] has been called. *)
Record Transport := {
  service : string;
  secure : bool;
  t_port : Z;
  auth_user : string;
  auth_pass : string;
  closed : bool
}.

Definition close (t : Transport) : Transport :=
  {| service := service t; secure := secure t; t_port := t_port t;
     auth_user := auth_user t; auth_pass := auth_pass t; closed := true |}.

(** The mail of /send-email; a field that the request does not have is
    [None]. *)
Record MailOptions := {
  o_from : string;
  o_to : option string;
  o_subject : option string;
  o_html : option string
}.

(** The module variables [imap] and [transporter]; [None] is [null]. *)
Record Session := {
  imap : option Connection;
  transporter : option Transport
}.

(** Both variables start as [null]. *)
Definition initial : Session := {| imap := None; transporter := None |}.

(** What the functions do to the libraries and to the console, in
    order. *)
Inductive call :=
| CloseBox
| End
| Connect (c : Config)
| CreateTransport (t : Transport)
| CloseTransport
| Send (t : Transport) (mailOptions : MailOptions) (r : option Err)
| ConsoleLog (text0 : string)
| ConsoleError.

(** How a middleware or a handler ends: it hands over to the next handler
    with [req.credentials], it gives a response, or, being [async], it is
    rejected with an error. *)
Inductive Outcome :=
| Next (user password : string)
| Respond (status : Z) (b : Body)
| Rejected (e : Err).

(** [v] is truthy: a string that is there and is not empty. *)
Definition truthy (v : option string) : bool :=
  match v with
  | Some (String _ _) => true
  | _ => false
  end.

(** The requests that touch the session. *)
Inductive request :=
| Guarded (Credentials : option (string * string))
| SendEmail (Credentials : option (string * string))
    (to subject message : option string)
| Mailbox (Credentials : option (string * string)) (st : string)
| Logout
| LoggedIn.

Section Methods.

(** The IMAP library: what connecting with a configuration gives ([inl]:
    the [error] event; [inr]: the state of the connection when it is
    ready), and the state that [end] and [closeBox] leave a connection
    in. *)
Variable connect : Config -> Err + string.
Variable ended : Connection -> string.
Variable closedBox : Connection -> string.

(** The mail library: what [sendMail] of a transporter reports for a
    mail. *)
Variable sendMail : Transport -> MailOptions -> option Err.

(** [imapConnect]: a new connection, made with [c], once it is ready. *)
Definition imapConnect (c : Config) : Err + Connection :=
  match connect c with
  | inr st => inr {| config := c; state := st |}
  | inl e => inl e
  end.

Definition getTransporter (s : Session) : option Transport := transporter s.

(** [getImap]: the box of a connection whose state is "open" is closed,
    and the connection is returned. The callback of [closeBox] only writes
    to the console, some time later. *)
Definition getImap (s : Session)
    : option Connection * Session * list call :=
  match imap s with
  | Some c =>
      if String.eqb (state c) "open"
      then (Some (with_state c (closedBox c)),
            {| imap := Some (with_state c (closedBox c));
               transporter := transporter s |},
            [CloseBox])
      else (Some c, s, [])
  | None => (None, s, [])
  end.

Definition nodeMailerAuth (u pass : string) (s : Session)
    : Session * list call :=
  let t := {| service := "127.0.0.1"; secure := false; t_port := 25;
              auth_user := u; auth_pass := pass; closed := false |} in
  ({| imap := imap s; transporter := Some t |}, [CreateTransport t]).

Definition imapConfig (u p : string) : Config :=
  {| user := u; password := p; host := "127.0.0.1"; port := 143;
     tls := false |}.

(** [imapAuth]: a connection whose state is "open" is ended, then a new
    one is made; [Some e]: the error that is thrown. *)
Definition imapAuth (u p : string) (s : Session)
    : option Err * Session * list call :=
  let '(s1, t1) :=
    match imap s with
    | Some c =>
        if String.eqb (state c) "open"
        then ({| imap := Some (with_state c (ended c));
                 transporter := transporter s |},
              [End])
        else (s, [])
    | None => (s, [])
    end in
  let imapConfig0 := imapConfig u p in
  match imapConnect imapConfig0 with
  | inr connection =>
      (None,
       {| imap := Some connection; transporter := transporter s1 |},
       (t1 ++ [ConsoleLog "Connecting to IMAP server"; Connect imapConfig0;
               ConsoleLog "Connection ready."])%list)
  | inl e =>
      (Some e, s1,
       (t1 ++ [ConsoleLog "Connecting to IMAP server"; Connect imapConfig0;
               ConsoleError; ConsoleError])%list)
  end.

(** [logout]: what is there is ended or closed, and forgotten. *)
Definition logout (s : Session) : Session * list call :=
  let '(i, t1) :=
    match imap s with
    | Some _ => (None, [End])
    | None => (imap s, [])
    end in
  let '(tr, t2) :=
    match transporter s with
    | Some _ => (None, [CloseTransport])
    | None => (transporter s, [])
    end in
  ({| imap := i; transporter := tr |}, (t1 ++ t2)%list).

(** [authMiddleware], with what [basicAuth(req)] gives: the name and the
    pass, or nothing. *)
Definition authMiddleware (Credentials : option (string * string))
    (s : Session) : Outcome * Session * list call :=
  let u := option_map fst Credentials in
  let p := option_map snd Credentials in
  let '(imap0, s1, t1) := getImap s in
  let transporter0 := getTransporter s1 in
  match u, p with
  | Some u0, Some p0 =>
      if truthy u && truthy p then
        let '(err, s2, t2) :=
          match imap0 with
          | None => imapAuth u0 p0 s1
          | Some _ => (None, s1, [])
          end in
        match err with
        | Some e => (Rejected e, s2, (t1 ++ t2)%list)
        | None =>
            let '(s3, t3) :=
              match transporter0 with
              | None => nodeMailerAuth u0 p0 s2
              | Some _ => (s2, [])
              end in
            (Next u0 p0, s3, (t1 ++ t2 ++ t3)%list)
        end
      else (Respond 401 (Message "You are not authenticated"), s1, t1)
  | _, _ => (Respond 401 (Message "You are not authenticated"), s1, t1)
  end.

(** GET /logout *)
Definition logout_handler (s : Session) : Outcome * Session * list call :=
  let '(s1, t) := logout s in
  (Respond 200 (Message "Logged out"), s1, t).

(** GET /login: the middleware, then the handler. *)
Definition login_handler (Credentials : option (string * string))
    (s : Session) : Outcome * Session * list call :=
  match authMiddleware Credentials s with
  | (Next _ _, s1, t) => (Respond 200 (Message "Logged in"), s1, t)
  | r => r
  end.

(** The handler of POST /send-email, for the [req.credentials.user] that
    the middleware has set. Without a transporter, the call of [sendMail]
    throws and the handler catches it. *)
Definition send_email (u : string) (to subject message : option string)
    (s : Session) : Outcome * Session * list call :=
  match getTransporter s with
  | None => (Respond 500 (Message "Error sending email"), s, [ConsoleError])
  | Some t =>
      let mailOptions :=
        {| o_from := u ++ "@localhost"; o_to := to; o_subject := subject;
           o_html := message |} in
      let s1 := {| imap := imap s; transporter := Some (close t) |} in
      match sendMail t mailOptions with
      | Some e =>
          (Respond 500 (Message "Error sending email"), s1,
           [Send t mailOptions (Some e); ConsoleError; CloseTransport])
      | None =>
          (Respond 200 (Message "Email sent"), s1,
           [Send t mailOptions None; CloseTransport])
      end
  end.

(** POST /send-email: the middleware, then the handler. *)
Definition send_email_route (Credentials : option (string * string))
    (to subject message : option string) (s : Session)
    : Outcome * Session * list call :=
  match authMiddleware Credentials s with
  | (Next u _, s1, t1) =>
      let '(o, s2, t2) := send_email u to subject message s1 in
      (o, s2, (t1 ++ t2)%list)
  | r => r
  end.

(** GET /logged-in *)
Definition logged_in_handler (s : Session)
    : Outcome * Session * list call :=
  let '(imap0, s1, t) := getImap s in
  match imap0 with
  | Some c =>
      if String.eqb (state c) "authenticated"
      then (Respond 200 (Message "Logged in"), s1, t)
      else (Respond 401 (Message "Not logged in"), s1, t)
  | None => (Respond 401 (Message "Not logged in"), s1, t)
  end.

(** The session after a request, served from beginning to end before
    the next one. [Guarded]: /login, whose handler leaves the session
    alone; [Mailbox]: a route behind the middleware whose handler calls
    [getImap] and goes on to use the connection, which it leaves in the
    state [st]. *)
Definition serve (r : request) (s : Session) : Session :=
  match r with
  | Guarded Credentials => snd (fst (authMiddleware Credentials s))
  | SendEmail Credentials to subject message =>
      snd (fst (send_email_route Credentials to subject message s))
  | Mailbox Credentials st =>
      match authMiddleware Credentials s with
      | (Next _ _, s1, _) =>
          let s2 := snd (fst (getImap s1)) in
          {| imap := option_map (fun c => with_state c st) (imap s2);
             transporter := transporter s2 |}
      | (_, s1, _) => s1
      end
  | Logout => snd (fst (logout_handler s))
  | LoggedIn => snd (fst (logged_in_handler s))
  end.

Definition serve_all (rs : list request) (s : Session) : Session :=
  fold_left (fun s0 r => serve r s0) rs s.

End Methods.

(** The transporter made for a name and a pass. *)
Definition transport (u p : string) : Transport :=
  {| service := "127.0.0.1"; secure := false; t_port := 25;
     auth_user := u; auth_pass := p; closed := false |}.

(** [r] is a request behind the middleware with these credentials. *)
Definition from_request (Credentials : option (string * string))
    (r : request) : Prop :=
  r = Guarded Credentials \/
  (exists to subject message,
     r = SendEmail Credentials to subject message) \/
  (exists st, r = Mailbox Credentials st).

(** A connection and a transporter are there together or not at all, and
    the transporter was made for the name and the pass that the connection
    was made with, which are those of one of the requests [rs] and are not
    empty. *)
Definition paired (rs : list request) (s : Session) : Prop :=
  match imap s, transporter s with
  | None, None => True
  | Some c, Some t =>
      exists u p,
        config c = imapConfig u p /\
        auth_user t = u /\ auth_pass t = p /\
        u <> "" /\ p <> "" /\
        exists r, In r rs /\ from_request (Some (u, p)) r
  | _, _ => False
  end.

(** A server for the samples: it lets the password "secret" in. *)
Definition sampleConnect (c : Config) : Err + string :=
  if String.eqb (password c) "secret"
  then inr "authenticated"
  else inl (Error "Invalid credentials").

Definition sampleEnded (c : Connection) : string := "disconnected".

Definition sampleClosedBox (c : Connection) : string := "authenticated".

(** A mail server for the samples: it takes the mails that have a
    receiver. *)
Definition sampleSendMail (t : Transport) (o : MailOptions) : option Err :=
  match o_to o with
  | Some _ => None
  | None => Some (Error "No recipients defined")
  end.

End Auth.

(** ** POST /move-to-folder *)

(** What a run of /move-to-folder does: the events of the other handlers
    and the call of [imap.seq.move], which only this handler makes. *)
Inductive move_event :=
| Ev (e : event)
| Move (id : Z) (folder : string) (r : option Err).

Section Move.

Context {W : Type} (imap : Client.t W).

(** [imap.seq.move]: what it reports, and the state after it. *)
Variable seq_move : Z -> string -> W -> option Err * W.

Definition move_to_folder (id : Z) (sourceFolder folder : string)
    (s : State W) : list move_event * State W :=
  let '(err, w1) := Client.openBox imap sourceFolder false (world s) in
  match err with
  | Some _ =>
      ([Ev (OpenBox sourceFolder false err); Ev LogError;
        Ev (Response 500 (Message "Error opening mailbox"))],
       {| selectedFolder := selectedFolder s; world := w1 |})
  | None =>
      let '(err1, w2) := seq_move id folder w1 in
      (Ev (OpenBox sourceFolder false None) :: Move id folder err1 ::
       match err1 with
       | Some _ =>
           [Ev LogError; Ev (Response 500 (Message "Error moving email"))]
       | None => [Ev (Response 200 (Message "Email moved to trash"))]
       end,
       {| selectedFolder := selectedFolder s; world := w2 |})
  end.

End Move.

(** The events of a run of /move-to-folder that the other handlers have
    too. *)
Definition shared_events (t : list move_event) : list event :=
  flat_map (fun e => match e with Ev e0 => [e0] | Move _ _ _ => [] end) t.

(** ** More samples *)

(** A store that enforces a read-only opening. *)
Definition readOnlyState (b : list (string * list Msg)) : State World :=
  {| selectedFolder := "INBOX";
     world := {| boxes := b; opened := None; outbox := []; faults := [];
                 delivery := AsRequested; readOnlyEnforced := true |} |}.

(** The session after alice has logged in with the pass "secret". *)
Definition aliceSession : Auth.Session :=
  {| Auth.imap := Some {| Auth.config := Auth.imapConfig "alice" "secret";
                          Auth.state := "authenticated" |};
     Auth.transporter := Some (Auth.transport "alice" "secret") |}.

(** The clients on the store with a fetch that refuses an empty list of
    identifiers, as the fetch of the IMAP library of the server does: it
    throws "Nothing to fetch". *)
Definition strictClient : Client.t World :=
  {| Client.getBoxes := w_getBoxes;
     Client.openBox := w_openBox;
     Client.search := w_search;
     Client.fetch := fun ids o w =>
       match ids with
       | [] => (inl (Error "Nothing to fetch"), w)
       | _ :: _ => w_fetch ids o w
       end;
     Client.fetch_end := fun _ => None;
     Client.seq_fetch := w_seq_fetch;
     Client.seq_addFlags := w_addFlags;
     Client.seq_delFlags := w_delFlags;
     Client.expunge := w_expunge;
     Client.append := w_append;
     Client.sendMail := w_sendMail |}.


(** * Properties *)

(** ** Facts about the primitives *)

Ltac in_list H :=
  simpl in H; repeat (destruct H as [H|H]; try discriminate);
  try contradiction.

Lemma prefix_app (p s : string) :
  String.prefix p s = true <-> exists b, s = p ++ b.
Proof.
  revert s. induction p as [|a p IH]; intros s; simpl.
  - split; [intros _; now exists s | intros _; now destruct s].
  - destruct s as [|c s].
    + split; [discriminate | intros [b Hb]; discriminate].
    + simpl. destruct (ascii_dec a c) as [->|Hne].
      * rewrite IH. split; intros [b Hb]; exists b.
        -- now rewrite Hb.
        -- now injection Hb.
      * split; [discriminate | intros [b Hb]]. injection Hb as H1 _.
        now elim Hne.
Qed.

Lemma includes_eq (s sub : string) :
  JS.includes s sub =
  String.prefix sub s ||
  match s with
  | EmptyString => false
  | String _ r => JS.includes r sub
  end.
Proof. destruct s; reflexivity. Qed.

(** [includes] finds exactly the substrings. *)
Lemma includes_spec (s sub : string) :
  JS.includes s sub = true <-> exists a b, s = a ++ sub ++ b.
Proof.
  split.
  - induction s as [|c s IH]; rewrite includes_eq, orb_true_iff.
    + intros [H|H]; [|discriminate]. apply prefix_app in H as [b Hb].
      now exists "", b.
    + intros [H|H].
      * apply prefix_app in H as [b Hb]. now exists "", b.
      * destruct (IH H) as (a & b & ->). now exists (String c a), b.
  - intros (a & b & ->). induction a as [|c a IH]; rewrite includes_eq.
    + apply orb_true_iff. left. apply prefix_app. now exists b.
    + simpl. rewrite IH. apply orb_true_r.
Qed.

Lemma lowerChar_idem (c : ascii) : JS.lowerChar (JS.lowerChar c) = JS.lowerChar c.
Proof. destruct c as [[] [] [] [] [] [] [] []]; reflexivity. Qed.

Lemma toLowerCase_idem (s : string) :
  JS.toLowerCase (JS.toLowerCase s) = JS.toLowerCase s.
Proof.
  induction s as [|c s IH]; simpl; [reflexivity|].
  now rewrite lowerChar_idem, IH.
Qed.

Lemma insertBy_perm (x : Z) (l : list Z) :
  Permutation (x :: l) (JS.insertBy newest_first x l).
Proof.
  induction l as [|y l IH]; simpl; [reflexivity|].
  destruct (newest_first x y <=? 0); [reflexivity|].
  rewrite perm_swap. now constructor.
Qed.

Lemma sort_perm (l : list Z) : Permutation l (JS.sort newest_first l).
Proof.
  induction l as [|x l IH]; simpl; [constructor|].
  rewrite <- insertBy_perm. now constructor.
Qed.

Lemma insertBy_descending (x : Z) (l : list Z) :
  descending l -> descending (JS.insertBy newest_first x l).
Proof.
  unfold descending, newest_first.
  induction l as [|y l IH]; intros H; simpl.
  - repeat constructor.
  - inversion H as [|? ? Hl Hy]; subst.
    destruct (y - x <=? 0) eqn:E.
    + apply Z.leb_le in E. constructor; [assumption|].
      constructor; [lia|].
      eapply Forall_impl; [|exact Hy]. simpl. intros; lia.
    + apply Z.leb_gt in E. constructor; [now apply IH|].
      eapply Permutation_Forall; [apply insertBy_perm|].
      constructor; [lia | assumption].
Qed.

Lemma sort_descending (l : list Z) : descending (JS.sort newest_first l).
Proof.
  induction l as [|x l IH]; simpl; [constructor|].
  now apply insertBy_descending.
Qed.


Lemma sort_length (l : list Z) :
  List.length (JS.sort newest_first l) = List.length l.
Proof. symmetry. apply Permutation_length, sort_perm. Qed.

(** [slice] between bounds that are not negative takes the positions from
    the first bound up to the second. *)
Lemma slice_window {A : Type} (l : list A) (a n : Z) :
  0 <= a -> 0 <= n ->
  JS.slice l a (a + n) = firstn (Z.to_nat n) (skipn (Z.to_nat a) l).
Proof.
  intros Ha Hn. unfold JS.slice, JS.relIndex.
  set (len := Z.of_nat (List.length l)).
  destruct (a <? 0) eqn:E1; [apply Z.ltb_lt in E1; lia|].
  destruct (a + n <? 0) eqn:E2; [apply Z.ltb_lt in E2; lia|].
  destruct (Z_le_gt_dec len a) as [Hge|Hlt].
  - rewrite (Z.min_r a len), (Z.min_r (a + n) len) by lia.
    rewrite Z.sub_diag. simpl.
    rewrite (skipn_all2 l (n := Z.to_nat a)) by (subst len; lia).
    now rewrite firstn_nil.
  - rewrite (Z.min_l a len) by lia.
    destruct (Z_le_gt_dec (a + n) len) as [Hin|Hout].
    + rewrite (Z.min_l (a + n) len) by lia. f_equal. lia.
    + rewrite (Z.min_r (a + n) len) by lia.
      rewrite !firstn_all2; try reflexivity;
        rewrite length_skipn; subst len; lia.
Qed.

Lemma slice_length {A : Type} (l : list A) (a n : Z) :
  0 <= a -> 0 <= n -> (List.length (JS.slice l a (a + n)) <= Z.to_nat n)%nat.
Proof.
  intros Ha Hn. rewrite slice_window by assumption. apply firstn_le_length.
Qed.

Lemma slice_beyond {A : Type} (l : list A) (a n : Z) :
  0 <= n -> Z.of_nat (List.length l) <= a -> JS.slice l a (a + n) = [].
Proof.
  intros Hn Ha. rewrite slice_window by lia.
  rewrite skipn_all2 by lia. apply firstn_nil.
Qed.

(** [ceilDiv n d] is the least number of groups of [d] that hold [n]. *)
Lemma ceilDiv_spec (n d : Z) :
  0 < d -> (JS.ceilDiv n d - 1) * d < n <= JS.ceilDiv n d * d.
Proof.
  intros Hd. unfold JS.ceilDiv.
  pose proof (Z.div_mod (- n) d ltac:(lia)) as E.
  pose proof (Z.mod_pos_bound (- n) d Hd) as B.
  nia.
Qed.

(** ** Facts about the mail store *)

Lemma next_fault_boxes (w : World) : boxes (snd (next_fault w)) = boxes w.
Proof. unfold next_fault. now destruct (faults w). Qed.

Lemma next_fault_policy (w : World) :
  delivery (snd (next_fault w)) = delivery w /\
  readOnlyEnforced (snd (next_fault w)) = readOnlyEnforced w.
Proof. unfold next_fault. now destruct (faults w). Qed.





Lemma next_fault_current (w : World) : current (snd (next_fault w)) = current w.
Proof. unfold next_fault. now destruct (faults w). Qed.

Lemma with_opened_current (w : World) (name : string) (ro : bool)
    (msgs : list Msg) :
  lookup_box name (boxes w) = Some msgs ->
  current (with_opened w (Some (name, ro)))
  = Some (name, negb (ro && readOnlyEnforced w), msgs).
Proof. intros H. unfold current. simpl. now rewrite H. Qed.

(** What a call that succeeded tells about the store. *)
Lemma w_getBoxes_ok (w w' : World) (keys : list string) :
  w_getBoxes w = (inr keys, w') ->
  w' = snd (next_fault w) /\ keys = map fst (boxes w).
Proof.
  unfold w_getBoxes. pose proof (next_fault_boxes w) as B.
  destruct (next_fault w) as [[e|] w1]; [discriminate|].
  intros [= <- <-]. simpl in B. now rewrite B.
Qed.

Lemma w_openBox_ok (name : string) (ro : bool) (w w' : World) :
  w_openBox name ro w = (None, w') ->
  w' = with_opened (snd (next_fault w)) (Some (name, ro)) /\
  exists msgs, lookup_box name (boxes w) = Some msgs.
Proof.
  unfold w_openBox. pose proof (next_fault_boxes w) as B.
  destruct (next_fault w) as [[e|] w1]; [discriminate|]. simpl in B.
  rewrite B. destruct (lookup_box name (boxes w)) as [msgs|];
    [|discriminate].
  intros [= <-]. split; [reflexivity | now exists msgs].
Qed.

Lemma w_search_ok (w w' : World) (results : list Z) :
  w_search w = (inr results, w') ->
  w' = snd (next_fault w) /\
  exists name wr msgs,
    current w = Some (name, wr, msgs) /\ results = map uid msgs.
Proof.
  unfold w_search. pose proof (next_fault_current w) as C.
  destruct (next_fault w) as [[e|] w1]; [discriminate|]. simpl in C.
  rewrite C. destruct (current w) as [[[n wr] msgs]|]; [|discriminate].
  intros [= <- <-]. split; [reflexivity | now exists n, wr, msgs].
Qed.

Lemma w_fetch_ok (ids : list Z) (o : FetchOptions) (w w' : World)
    (ms : list Fetched) :
  w_fetch ids o w = (inr ms, w') ->
  exists name wr msgs,
    current w = Some (name, wr, msgs) /\
    ms = map fetched (select (delivery w) ids msgs).
Proof.
  unfold w_fetch. pose proof (next_fault_current w) as C.
  destruct (next_fault_policy w) as [D _].
  destruct (next_fault w) as [[e|] w1]; [discriminate|]. simpl in C, D.
  rewrite C, D. destruct (current w) as [[[n wr] msgs]|]; [|discriminate].
  intros [= <- _]. now exists n, wr, msgs.
Qed.

(** The messages of a mailbox and their numbers. *)
Lemma numbered_snd (k : Z) (msgs : list Msg) :
  map snd (numbered k msgs) = msgs.
Proof.
  revert k. induction msgs as [|m msgs IH]; intros k; simpl;
    [reflexivity | now rewrite IH].
Qed.

Lemma numbered_fst (k : Z) (msgs : list Msg) (nm : Z * Msg) :
  In nm (numbered k msgs) -> k <= fst nm.
Proof.
  revert k. induction msgs as [|m msgs IH]; intros k; simpl; [intros []|].
  intros [<-|H]; simpl; [lia|]. specialize (IH _ H). lia.
Qed.

(** The identifiers of chosen messages of a mailbox are distinct as those
    of the mailbox are. *)
Lemma chosen_uids_distinct (keep : Z * Msg -> bool) (nms : list (Z * Msg)) :
  NoDup (map (fun nm => uid (snd nm)) nms) ->
  NoDup (map (fun nm => uid (snd nm)) (filter keep nms)).
Proof.
  induction nms as [|x nms IH]; simpl; [constructor|].
  intros H. inversion H as [|? ? Hx Hl]; subst.
  destruct (keep x); simpl; [|now apply IH].
  constructor; [|now apply IH].
  intros Hin. apply Hx. apply in_map_iff in Hin as (y & Hy & Hf).
  apply filter_In in Hf as [Hf _]. apply in_map_iff. now exists y.
Qed.

Lemma filter_key_length (i : Z) (l : list (Z * Msg)) :
  NoDup (map (fun nm => uid (snd nm)) l) ->
  (List.length (filter (fun nm => (uid (snd nm) =? i)%Z) l) <= 1)%nat.
Proof.
  induction l as [|x l IH]; simpl; [lia|].
  intros H. inversion H as [|? ? Hx Hl]; subst. specialize (IH Hl).
  destruct (uid (snd x) =? i) eqn:E; [|lia]. simpl.
  apply Z.eqb_eq in E.
  destruct (filter (fun nm => uid (snd nm) =? i) l) as [|y r] eqn:F;
    [simpl; lia|].
  exfalso. apply Hx.
  assert (Hy : In y (filter (fun nm => uid (snd nm) =? i) l))
    by (rewrite F; now left).
  apply filter_In in Hy as [Hy1 Hy2]. apply Z.eqb_eq in Hy2.
  apply in_map_iff. exists y. split; [congruence | exact Hy1].
Qed.

(** A fetch delivers no more messages than identifiers were asked for,
    the identifiers of a mailbox being distinct. *)
Lemma select_length (d : Delivery) (ids : list Z) (msgs : list Msg) :
  NoDup (map uid msgs) ->
  (List.length (select d ids msgs) <= List.length ids)%nat.
Proof.
  intros H.
  assert (HN : NoDup (map (fun nm => uid (snd nm)) (numbered 1 msgs))).
  { rewrite <- (map_map snd uid), numbered_snd. exact H. }
  destruct d; simpl.
  - induction ids as [|i ids IH]; simpl; [lia|].
    rewrite length_app. pose proof (filter_key_length i _ HN). lia.
  - set (r := filter _ _).
    rewrite <- (length_map (fun nm => uid (snd nm)) r).
    apply NoDup_incl_length.
    + now apply chosen_uids_distinct.
    + intros x Hx. apply in_map_iff in Hx as (nm & <- & Hnm).
      apply filter_In in Hnm as [_ Hm]. unfold mem in Hm.
      apply existsb_exists in Hm as (y & Hy & E).
      apply Z.eqb_eq in E. now subst.
Qed.

(** Descending lists. *)
Lemma descending_app (l1 l2 : list Z) :
  descending l1 -> descending l2 ->
  (forall a b, In a l1 -> In b l2 -> b <= a) ->
  descending (l1 ++ l2).
Proof.
  unfold descending. intros H1 H2 H.
  induction l1 as [|x l1 IH]; simpl; [exact H2|].
  inversion H1 as [|? ? S F]; subst.
  constructor.
  - apply IH; [exact S|]. intros a b Ha Hb. apply H; [now right | exact Hb].
  - apply Forall_app. split; [exact F|].
    apply Forall_forall. intros b Hb. apply H; [now left | exact Hb].
Qed.

Lemma descending_related (l : list Z) :
  (forall a b, In a l -> In b l -> b <= a) -> descending l.
Proof.
  unfold descending. induction l as [|x l IH]; intros H; constructor.
  - apply IH. intros a b Ha Hb. apply H; now right.
  - apply Forall_forall. intros b Hb. apply H; [now left | now right].
Qed.

Lemma descending_skipn (k : nat) (l : list Z) :
  descending l -> descending (skipn k l).
Proof.
  unfold descending. revert l. induction k as [|k IH]; intros l H; simpl;
    [exact H|].
  destruct l as [|x l]; [constructor|].
  inversion H; subst. now apply IH.
Qed.

Lemma descending_firstn (n : nat) (l : list Z) :
  descending l -> descending (firstn n l).
Proof.
  unfold descending. revert l. induction n as [|n IH]; intros l H; simpl;
    [constructor|].
  destruct l as [|x l]; [constructor|].
  inversion H as [|? ? S F]; subst. constructor; [now apply IH|].
  apply Forall_forall. intros b Hb. rewrite Forall_forall in F. apply F.
  rewrite <- (firstn_skipn n l). apply in_or_app. now left.
Qed.

Lemma page_slice_descending (results : list Z) (page pageSize : Z) :
  descending (page_slice results page pageSize).
Proof.
  unfold page_slice, JS.slice.
  apply descending_firstn, descending_skipn, sort_descending.
Qed.

(** In a mailbox whose identifiers grow with the position, a message with
    the greater identifier has the greater sequence number. *)
Lemma numbered_monotone (msgs : list Msg) (k : Z) (nm nm' : Z * Msg) :
  StronglySorted Z.lt (map uid msgs) ->
  In nm (numbered k msgs) -> In nm' (numbered k msgs) ->
  uid (snd nm') <= uid (snd nm) -> fst nm' <= fst nm.
Proof.
  revert k. induction msgs as [|m msgs IH]; intros k HS; simpl; [intros []|].
  inversion HS as [|? ? S F]; subst. rewrite Forall_forall in F.
  assert (Htail : forall x, In x (numbered (k + 1) msgs) ->
                            uid m < uid (snd x) /\ k + 1 <= fst x).
  { intros x Hx. split; [|now apply numbered_fst in Hx].
    apply F. apply in_map. rewrite <- (numbered_snd (k + 1) msgs).
    now apply in_map. }
  intros [<-|H1] [<-|H2] Hle; simpl in *.
  - lia.
  - destruct (Htail _ H2). lia.
  - destruct (Htail _ H1). lia.
  - now apply (IH (k + 1)).
Qed.

Lemma flat_map_descending (f : Z -> list (Z * Msg)) (ids : list Z) :
  descending ids ->
  (forall i j a b,
      In i ids -> In j ids -> j <= i -> In a (f i) -> In b (f j) ->
      fst b <= fst a) ->
  descending (map fst (flat_map f ids)).
Proof.
  intros HS H. induction ids as [|i ids IH]; simpl; [constructor|].
  inversion HS as [|? ? S F]; subst. rewrite Forall_forall in F.
  rewrite map_app. apply descending_app.
  - apply descending_related. intros a b Ha Hb.
    apply in_map_iff in Ha as (x & <- & Hx).
    apply in_map_iff in Hb as (y & <- & Hy).
    apply (H i i); simpl; auto; lia.
  - apply IH; [exact S|]. intros i0 j a b Hi Hj. apply H; now right.
  - intros a b Ha Hb.
    apply in_map_iff in Ha as (x & <- & Hx).
    apply in_map_iff in Hb as (y & <- & Hy).
    apply in_flat_map in Hy as (j & Hj & Hy).
    apply (H i j); simpl; auto.
Qed.

(** Messages delivered in the order of a descending request come with
    descending sequence numbers. *)
Lemma select_as_requested_descending (ids : list Z) (msgs : list Msg) :
  StronglySorted Z.lt (map uid msgs) -> descending ids ->
  descending (map seqno (map fetched (select AsRequested ids msgs))).
Proof.
  intros HS Hd. rewrite map_map. simpl.
  change (fun x : Z * Msg => fst x) with (@fst Z Msg).
  apply flat_map_descending; [exact Hd|].
  intros i j a b _ _ Hle Ha Hb.
  apply filter_In in Ha as [Ha Ei]. apply filter_In in Hb as [Hb Ej].
  apply Z.eqb_eq in Ei, Ej.
  apply (numbered_monotone msgs 1); try assumption. lia.
Qed.


(** ** Letters and their case *)








(** ** Windows of a list *)





(** ** Running /get-emails *)

Section Listing.

Context {W : Type} (imap : Client.t W).
Variable simpleParser : string -> option ParsedMail.
Variable now : string.

(** Every run of the handler is one of these. *)
Lemma get_emails_listing (q : Query) (s : State W) :
  listing imap simpleParser now q s
    (fst (run imap (get_emails simpleParser now q) s))
    (snd (run imap (get_emails simpleParser now q) s)).
Proof.
  unfold get_emails, folder_of. fold (page_of q) (pageSize_of q).
  cbn [run].
  destruct (Client.getBoxes imap (world s)) as [[e|keys] w1] eqn:E1;
    cbn [run emit fst snd world selectedFolder].
  { eapply listing_no_boxes; eassumption. }
  destruct (folder_or_inbox (q_folder q)) as [folder|] eqn:E0.
  2: { assert (ES : q_folder q = Structured)
         by (destruct (q_folder q) as [|[|c r]|]; now try discriminate).
       destruct keys as [|k keys];
         cbn [run emit fst snd world selectedFolder];
         [apply listing_no_text_empty | apply listing_no_text];
         assumption. }
  assert (ES : q_folder q <> Structured)
    by (intros ES; rewrite ES in E0; discriminate).
  assert (EF : folder_of q = folder) by (unfold folder_of; now rewrite E0).
  rewrite <- EF. clear EF E0.
  destruct (find_folder (folder_of q) keys) as [[|c sel]|] eqn:E2;
    cbn [run emit fst snd world selectedFolder].
  1,3: eapply listing_not_found; eauto.
  destruct (Client.openBox imap (String c sel) true w1) as [[e|] w2] eqn:E3;
    cbn [run emit fst snd world selectedFolder].
  { eapply listing_not_opened; eauto. discriminate. }
  destruct (Client.search imap w2) as [[e|results] w3] eqn:E4;
    cbn [run emit fst snd world selectedFolder].
  { eapply listing_no_search; eauto. discriminate. }
  destruct (Client.fetch imap
              (page_slice results (page_of q) (pageSize_of q))
                    fetchOptions w3) as [[e|messages] w4] eqn:E5;
    cbn [run emit fst snd world selectedFolder].
  { eapply listing_no_fetch; eauto. discriminate. }
  destruct (Client.fetch_end imap w4) as [e|] eqn:E7;
    cbn [run emit fst snd world selectedFolder].
  { eapply listing_fetch_error; eauto. discriminate. }
  destruct (all_emails simpleParser now messages) as [emails|] eqn:E6;
    cbn [run emit fst snd world selectedFolder].
  - eapply listing_page; eauto. discriminate.
  - eapply listing_no_parse; eauto. discriminate.
Qed.

Ltac in_trace H :=
  simpl in H; repeat (destruct H as [H|H]; try discriminate);
  try contradiction.

(** *** Listing reads only *)

Section Frame.

(** What is to be kept, as a view [flagState] of the state behind the
    client, and the calls that keep it: those that read. *)
Context {A : Type} (flagState : W -> A).

Hypothesis getBoxes_reads :
  forall w, flagState (snd (Client.getBoxes imap w)) = flagState w.
Hypothesis openBox_reads :
  forall name w,
    flagState (snd (Client.openBox imap name true w)) = flagState w.
Hypothesis search_reads :
  forall w, flagState (snd (Client.search imap w)) = flagState w.
Hypothesis fetch_reads :
  forall ids o w,
    markSeen o = false ->
    flagState (snd (Client.fetch imap ids o w)) = flagState w.


End Frame.

(** *** Folder resolution *)


Lemma includes_matches (folder key : string) :
  JS.includes (JS.toLowerCase key) (JS.toLowerCase folder) = true <->
  folder_matches folder key.
Proof. apply includes_spec. Qed.

Lemma not_matches (folder key : string) :
  JS.includes (JS.toLowerCase key) (JS.toLowerCase folder) = false ->
  ~ folder_matches folder key.
Proof. intros H M. apply includes_matches in M. congruence. Qed.

Lemma find_folder_first (folder : string) (keys : list string) (k : string) :
  find_folder folder keys = Some k <->
  exists l1 l2, keys = (l1 ++ k :: l2)%list /\ folder_matches folder k /\
                forall k', In k' l1 -> ~ folder_matches folder k'.
Proof.
  unfold find_folder. split.
  - induction keys as [|x keys IH]; simpl; [discriminate|].
    destruct (JS.includes (JS.toLowerCase x) (JS.toLowerCase folder)) eqn:E.
    + intros [= ->]. exists [], keys. split; [reflexivity|].
      split; [now apply includes_matches|]. intros k' [].
    + intros H. destruct (IH H) as (l1 & l2 & -> & M & N).
      exists (x :: l1), l2. split; [reflexivity|]. split; [exact M|].
      intros k' [<-|Hin]; [now apply not_matches | now apply N].
  - intros (l1 & l2 & -> & M & N).
    induction l1 as [|x l1 IH]; simpl.
    + apply includes_matches in M. now rewrite M.
    + destruct (JS.includes (JS.toLowerCase x) (JS.toLowerCase folder)) eqn:E.
      * apply includes_matches in E. elim (N x); [now left | exact E].
      * apply IH. intros k' Hin. apply N. now right.
Qed.







(** *** The page of a listing *)

Lemma all_emails_ids (l : list Fetched) (es : list Email) :
  all_emails simpleParser now l = Some es -> map e_id es = map seqno l.
Proof.
  revert es. induction l as [|m l IH]; simpl; intros es.
  - now intros [= <-].
  - unfold to_email. destruct (simpleParser (stream m)); [|discriminate].
    destruct (all_emails simpleParser now l) as [es'|]; [|discriminate].
    intros [= <-]. simpl. now rewrite (IH es').
Qed.

Lemma all_emails_length (l : list Fetched) (es : list Email) :
  all_emails simpleParser now l = Some es -> List.length es = List.length l.
Proof.
  intros H. apply all_emails_ids in H.
  now rewrite <- (length_map e_id), H, length_map.
Qed.

(** C1: with a page and a page size of at least 1, every page that
    /get-emails returns has [totalMessages] the number of identifiers that
    the search of the folder returned and [totalPages] the ceiling of
    [totalMessages / pageSize]; at most [pageSize] identifiers are fetched,
    and one email is returned for each message that the fetch delivers.
    For a page beyond the last, and so for page 1 of an empty mailbox, the
    handler hands the empty list of identifiers to the fetch, without a
    guard: with a client that refuses it the response is the 500 "Error
    fetching emails" and not the empty page, which only a client that
    accepts the empty list gives. *)
Theorem listing_page_counts (q : Query) (s : State W) :
  1 <= page_of q -> 1 <= pageSize_of q ->
  exact_paging (page_of q) (pageSize_of q) ->
  let r := run imap (get_emails simpleParser now q) s in
  (forall emails p ps tp tm,
      In (Response 200 (Page emails p ps tp tm)) (fst r) ->
      exists results ids ms,
        In (SearchAll (inr results)) (fst r) /\
        In (Fetch ids fetchOptions (inr ms)) (fst r) /\
        p = page_of q /\ ps = pageSize_of q /\
        tm = Z.of_nat (List.length results) /\
        tp = JS.ceilDiv tm ps /\
        (tp - 1) * ps < tm <= tp * ps /\
        Z.of_nat (List.length ids) <= ps /\
        (tm <= (p - 1) * ps -> ids = []) /\
        List.length emails = List.length ms /\
        ((List.length ms <= List.length ids)%nat ->
         Z.of_nat (List.length emails) <= ps /\
         (tm <= (p - 1) * ps -> emails = [])))
  /\
  (forall results,
      In (SearchAll (inr results)) (fst r) ->
      Z.of_nat (List.length results) <= (page_of q - 1) * pageSize_of q ->
      (exists res, In (Fetch [] fetchOptions res) (fst r)) /\
      ((forall o w, exists e, fst (Client.fetch imap [] o w) = inl e) ->
       responses (fst r) = [(500, Message "Error fetching emails")] /\
       In LogError (fst r)) /\
      ((forall o w, fst (Client.fetch imap [] o w) = inr []) ->
       (forall w, Client.fetch_end imap w = None) ->
       responses (fst r)
       = [(200, Page [] (page_of q) (pageSize_of q)
                  (JS.ceilDiv (Z.of_nat (List.length results))
                              (pageSize_of q))
                  (Z.of_nat (List.length results)))]))
  /\
  ((exists e, In e (fst r) /\ failed e = true) \/
   In Exception (fst r) \/
   responses (fst r) = [(404, Message "Folder not found")] \/
   exists (emails : list Email) (results : list Z),
     responses (fst r)
     = [(200, Page emails (page_of q) (pageSize_of q)
                (JS.ceilDiv (Z.of_nat (List.length results)) (pageSize_of q))
                (Z.of_nat (List.length results)))] /\
     ~ In LogError (fst r)).
Proof.
  intros Hp Hs _ r. subst r.
  pose proof (get_emails_listing q s) as L.
  set (r := run imap (get_emails simpleParser now q) s) in *.
  assert (Hnil : forall results,
             Z.of_nat (List.length results)
             <= (page_of q - 1) * pageSize_of q ->
             page_slice results (page_of q) (pageSize_of q) = []).
  { intros results Hb. unfold page_slice. apply slice_beyond; [lia|].
    now rewrite sort_length. }
  split; [|split].
  - intros emails p ps tp tm Hin.
    destruct L; in_trace Hin.
    injection Hin as -> <- <- <- <-.
    match goal with
    | H : all_emails _ _ _ = Some _ |- _ => apply all_emails_length in H as HL
    end.
    assert (Hle : (List.length (page_slice results (page_of q) (pageSize_of q))
                   <= Z.to_nat (pageSize_of q))%nat).
    { unfold page_slice. apply slice_length; nia. }
    exists results, (page_slice results (page_of q) (pageSize_of q)), messages.
    split; [simpl; auto 10|]. split; [simpl; auto 10|].
    do 4 (split; [reflexivity|]).
    split; [apply ceilDiv_spec; lia|].
    split; [lia|]. split; [apply Hnil|]. split; [exact HL|].
    intros Hms. split; [lia|].
    intros Hb. rewrite (Hnil _ Hb) in Hms. simpl in Hms.
    destruct emails; [reflexivity | simpl in HL; lia].
  - intros results Hin Hb.
    destruct L; in_trace Hin; injection Hin as <-;
      rewrite (Hnil _ Hb) in *;
      (split; [eexists; simpl; eauto 10|]);
      (split; [intros Hno|intros Hyes Hend]);
      match goal with
      | H : Client.fetch imap [] ?o ?w = _ |- _ =>
          try (destruct (Hno o w) as [e0 He0]; rewrite H in He0;
               simpl in He0);
          try (pose proof (Hyes o w) as Hy; rewrite H in Hy; simpl in Hy)
      end;
      try discriminate;
      try (split; [reflexivity | simpl; auto 10]).
    + match goal with
      | H : Client.fetch_end imap ?w = Some _ |- _ =>
          rewrite (Hend w) in H; discriminate
      end.
    + injection Hy as ->. discriminate.
    + injection Hy as ->.
      match goal with
      | H : all_emails _ _ [] = Some _ |- _ => simpl in H; injection H as <-
      end.
      reflexivity.
  - destruct L.
    + left. eexists. split; [right; left; reflexivity | reflexivity].
    + do 2 right. left. reflexivity.
    + left. eexists. split; [do 3 right; left; reflexivity | reflexivity].
    + left. eexists. split; [do 4 right; left; reflexivity | reflexivity].
    + left. eexists. split; [do 5 right; left; reflexivity | reflexivity].
    + do 2 right. left. reflexivity.
    + right. left. simpl. auto 10.
    + right. left. simpl. auto 10.
    + right. left. simpl. auto 10.
    + do 3 right. exists emails, results. split; [reflexivity|].
      intros Hin. in_trace Hin.
Qed.


(** C3 (as amended): the emails of a page that /get-emails returns come in
    the order in which the fetch delivered the messages, each with the
    sequence number of its message, and the messages were asked for in
    descending order of identifier; the emails are in descending order
    exactly when the client delivered the messages so. *)
Theorem emails_in_delivery_order (q : Query) (s : State W)
    (emails : list Email) (p ps tp tm : Z) :
  In (Response 200 (Page emails p ps tp tm))
     (fst (run imap (get_emails simpleParser now q) s)) ->
  exists ids delivered,
    In (Fetch ids fetchOptions (inr delivered))
       (fst (run imap (get_emails simpleParser now q) s)) /\
    descending ids /\
    map e_id emails = map seqno delivered /\
    (descending (map e_id emails) <-> descending (map seqno delivered)).
Proof.
  intros Hin.
  pose proof (get_emails_listing q s) as L.
  set (r := run imap (get_emails simpleParser now q) s) in *.
  destruct L; in_trace Hin.
  injection Hin as -> <- <- <- <-.
  match goal with
  | H : all_emails _ _ _ = Some _ |- _ => apply all_emails_ids in H as HI
  end.
  exists (page_slice results (page_of q) (pageSize_of q)), messages.
  split; [simpl; auto 10|].
  split; [apply page_slice_descending|]. split; [exact HI|].
  now rewrite HI.
Qed.

End Listing.

(** ** Running /send-reply *)

Lemma startsWith_app (p s : string) : JS.startsWith (p ++ s) p = true.
Proof. unfold JS.startsWith. apply prefix_app. now exists s. Qed.

Lemma reply_subject_kept (s : string) :
  JS.startsWith s "Re: " = true -> reply_subject s = s.
Proof. unfold reply_subject. now intros ->. Qed.

Lemma reply_subject_prefixed (s : string) :
  JS.startsWith s "Re: " = false -> reply_subject s = "Re: " ++ s.
Proof. unfold reply_subject. now intros ->. Qed.

Lemma reply_subject_starts (s : string) :
  JS.startsWith (reply_subject s) "Re: " = true.
Proof.
  unfold reply_subject. destruct (JS.startsWith s "Re: ") eqn:E;
    [exact E | apply startsWith_app].
Qed.

(** A second "Re: " in front of the first was there before. *)
Lemma reply_subject_twice (s : string) :
  JS.startsWith (reply_subject s) "Re: Re: " = true ->
  JS.startsWith s "Re: " = true /\ JS.startsWith s "Re: Re: " = true.
Proof.
  unfold reply_subject. destruct (JS.startsWith s "Re: ") eqn:E.
  - intros H. split; [reflexivity | exact H].
  - intros H. unfold JS.startsWith in *.
    apply prefix_app in H as [b Hb]. simpl in Hb. injection Hb as Hs.
    assert (P : String.prefix "Re: " s = true)
      by (apply prefix_app; now exists b).
    congruence.
Qed.

Section Replying.

Context {W : Type} (imap : Client.t W).
Variable simpleParser : string -> option ParsedMail.

(** Every run of the handler is one of the runs of [replying]. *)
Lemma send_reply_replying (folder user : string) (text0 : option string)
    (id : Z) (s : State W) :
  replying imap simpleParser folder user text0 id s
    (fst (run imap (send_reply simpleParser folder user text0 id) s))
    (snd (run imap (send_reply simpleParser folder user text0 id) s)).
Proof.
  unfold send_reply. cbn [run].
  destruct (Client.openBox imap folder false (world s)) as [[e|] w1] eqn:E1;
    cbn [run emit fst snd world selectedFolder].
  { eapply replying_not_opened; eassumption. }
  destruct (Client.seq_fetch imap id fetchOptions w1) as [[m|] w2] eqn:E2;
    cbn [run emit fst snd world selectedFolder].
  2: { eapply replying_no_message; eassumption. }
  unfold reply_body.
  destruct (simpleParser (stream m)) as [email|] eqn:E3;
    cbn [run emit fst snd world selectedFolder].
  2: { eapply replying_not_composed; eauto. }
  destruct (from email) as [fromText|] eqn:E4;
    cbn [run emit fst snd world selectedFolder].
  2: { eapply replying_not_composed; eauto. }
  destruct (subject email) as [subj|] eqn:E5;
    cbn [run emit fst snd world selectedFolder].
  2: { eapply replying_not_composed; eauto. }
  destruct (Client.sendMail imap _ w2) as [[e|] w3] eqn:E6; unfold reply_sent;
    cbn [run emit fst snd world selectedFolder].
  { eapply replying_not_sent; eassumption. }
  destruct (to email) as [toText|] eqn:E7;
    cbn [run emit fst snd world selectedFolder].
  2: { eapply replying_no_receiver; eassumption. }
  destruct (Client.append imap _ "Sent" w3) as [res w4] eqn:E8.
  pose proof (replying_sent imap simpleParser folder user text0 id s
                _ _ _ _ _ _ _ _ _ _ E1 E2 E3 E4 E5 E6 E7 E8) as R.
  destruct res; exact R.
Qed.

(** C6 (as amended): the subject of a reply is the subject of the message
    replied to when that starts with "Re: " (the letters compared as they
    are), and that subject with "Re: " in front of it otherwise, so that it
    starts with "Re: Re: " only when the subject replied to does already;
    every reply that /send-reply sends has this subject. *)
Theorem reply_subject_once :
  (forall s,
      (JS.startsWith s "Re: " = true -> reply_subject s = s) /\
      (JS.startsWith s "Re: " = false -> reply_subject s = "Re: " ++ s) /\
      JS.startsWith (reply_subject s) "Re: " = true /\
      (JS.startsWith s "Re: " = true ->
       JS.startsWith s "Re: Re: " = false ->
       JS.startsWith (reply_subject s) "Re: Re: " = false)) /\
  reply_subject "RE: hello" = "Re: RE: hello" /\
  (forall folder user text0 id s m res,
      In (SendMail m res)
         (fst (run imap (send_reply simpleParser folder user text0 id) s)) ->
      exists f email subj,
        In (SeqFetch id fetchOptions (Some f))
           (fst (run imap (send_reply simpleParser folder user text0 id) s)) /\
        simpleParser (stream f) = Some email /\
        subject email = Some subj /\
        m_subject m = reply_subject subj).
Proof.
  split; [|split; [reflexivity|]].
  - intros s. split; [apply reply_subject_kept|].
    split; [apply reply_subject_prefixed|].
    split; [apply reply_subject_starts|].
    intros H1 H2.
    destruct (JS.startsWith (reply_subject s) "Re: Re: ") eqn:E;
      [|reflexivity].
    apply reply_subject_twice in E as [_ E]. congruence.
  - intros folder user text0 id s m res Hin.
    pose proof (send_reply_replying folder user text0 id s) as R.
    set (r := run imap (send_reply simpleParser folder user text0 id) s) in *.
    destruct R;
      try (destruct res0; simpl in Hin);
      simpl in Hin;
      repeat (destruct Hin as [Hin|Hin]; try discriminate);
      try contradiction;
      injection Hin as <- _;
      eexists _, _, _; (split; [simpl; auto 10|]); eauto.
Qed.

(** The order of what /send-reply does around the sending: a failed
    sending is answered by the 500 response "Error sending reply" and no
    append is made; after a sending that succeeded, for a message that
    names its receiver, the 200 response comes first and the copy is then
    appended to "Sent", a failure of the append being logged and nothing
    more. *)
Lemma send_reply_flow (folder user : string) (text0 : option string)
    (id : Z) (s : State W) (m : Mail) :
  let t := fst (run imap (send_reply simpleParser folder user text0 id) s) in
  (forall e,
      In (SendMail m (Some e)) t ->
      responses t = [(500, Message "Error sending reply")] /\
      forall rawMessage mailbox res, ~ In (Append rawMessage mailbox res) t) /\
  (In (SendMail m None) t ->
   responses t = [(200, Message "Reply sent")] /\
   forall f email toText,
     In (SeqFetch id fetchOptions (Some f)) t ->
     simpleParser (stream f) = Some email ->
     to email = Some toText ->
     exists pre res,
       t = (pre ++
            [SendMail m None; Response 200 (Message "Reply sent");
             Append (raw_message (m_to m) toText (m_subject m) (m_html m))
                    "Sent" res]
            ++ match res with Some _ => [LogError] | None => [] end)%list).
Proof.
  intros t. subst t.
  pose proof (send_reply_replying folder user text0 id s) as R.
  set (r := run imap (send_reply simpleParser folder user text0 id) s) in *.
  split.
  - intros e Hin.
    destruct R; try (destruct res; simpl in Hin); simpl in Hin;
      repeat (destruct Hin as [Hin|Hin]; try discriminate);
      try contradiction.
    split; [reflexivity|].
    intros rawMessage mailbox res' HA. simpl in HA.
    repeat (destruct HA as [HA|HA]; try discriminate); contradiction.
  - intros Hin.
    destruct R; try (destruct res; simpl in Hin); simpl in Hin;
      repeat (destruct Hin as [Hin|Hin]; try discriminate);
      try contradiction;
      injection Hin as <-;
      (split; [reflexivity|]);
      intros f email0 toText0 Hf Hp Ht; simpl in Hf;
      repeat (destruct Hf as [Hf|Hf]; try discriminate);
      try contradiction;
      injection Hf as <-;
      match goal with
      | H : simpleParser _ = Some _ |- _ =>
          rewrite Hp in H; injection H as <-
      end;
      try congruence;
      match goal with
      | H : to _ = Some _ |- _ => rewrite Ht in H; injection H as <-
      end.
    + eexists [_; _], (Some _). reflexivity.
    + eexists [_; _], None. reflexivity.
Qed.

(** C8: a reply to a message that has no To header, sent with success: the
    200 response is given, then building the copy for "Sent" raises an
    exception, and no append is made. *)
Theorem send_reply_without_receiver (folder user : string)
    (text0 : option string) (id : Z) (s : State W) (m : Mail) (f : Fetched)
    (email : ParsedMail) :
  let t := fst (run imap (send_reply simpleParser folder user text0 id) s) in
  In (SendMail m None) t ->
  In (SeqFetch id fetchOptions (Some f)) t ->
  simpleParser (stream f) = Some email ->
  to email = None ->
  t = [OpenBox folder false None; SeqFetch id fetchOptions (Some f);
       SendMail m None; Response 200 (Message "Reply sent"); Exception] /\
  forall rawMessage mailbox res, ~ In (Append rawMessage mailbox res) t.
Proof.
  intros t Hin Hf Hp Ht. subst t.
  pose proof (send_reply_replying folder user text0 id s) as R.
  set (r := run imap (send_reply simpleParser folder user text0 id) s) in *.
  destruct R; try (destruct res; simpl in Hin); simpl in Hin;
    repeat (destruct Hin as [Hin|Hin]; try discriminate);
    try contradiction;
    injection Hin as <-;
    simpl in Hf;
    repeat (destruct Hf as [Hf|Hf]; try discriminate);
    try contradiction;
    injection Hf as <-;
    match goal with
    | H : simpleParser _ = Some _ |- _ => rewrite Hp in H; injection H as <-
    end;
    try congruence.
  split; [reflexivity|].
  intros rawMessage mailbox res HA. simpl in HA.
  repeat (destruct HA as [HA|HA]; try discriminate); contradiction.
Qed.

End Replying.

(** ** Changes of flags on the store *)

Lemma lookup_update_box (name : string) (f : list Msg -> list Msg)
    (b : list (string * list Msg)) :
  lookup_box name (update_box name f b) = option_map f (lookup_box name b).
Proof.
  induction b as [|[n msgs] b IH]; simpl; [reflexivity|].
  destruct (String.eqb n name) eqn:E; simpl; rewrite E; [reflexivity|].
  exact IH.
Qed.

Lemma numbered_map (h : Z * Msg -> Msg) (k : Z) (msgs : list Msg) :
  numbered k (map h (numbered k msgs))
  = map (fun nm => (fst nm, h nm)) (numbered k msgs).
Proof.
  revert k. induction msgs as [|m msgs IH]; intros k; simpl;
    [reflexivity | now rewrite IH].
Qed.

Lemma filter_numbered_map (h : Z * Msg -> Msg) (id : Z) (l : list (Z * Msg)) :
  filter (fun nm => fst nm =? id) (map (fun nm => (fst nm, h nm)) l)
  = map (fun nm => (fst nm, h nm)) (filter (fun nm => fst nm =? id) l).
Proof.
  induction l as [|x l IH]; simpl; [reflexivity|].
  destruct (fst x =? id); simpl; now rewrite IH.
Qed.

Lemma numbered_find (id k : Z) (msgs : list Msg) :
  k <= id < k + Z.of_nat (List.length msgs) ->
  exists m rest,
    filter (fun nm => fst nm =? id) (numbered k msgs) = (id, m) :: rest.
Proof.
  revert k. induction msgs as [|m msgs IH]; intros k H; simpl in *; [lia|].
  destruct (k =? id) eqn:E.
  - apply Z.eqb_eq in E. subst. eauto.
  - apply Z.eqb_neq in E. apply IH. lia.
Qed.

Lemma flag_in_add (f : string) (m : Msg) :
  flag_in f (flags (add_flag f m)) = true.
Proof.
  unfold add_flag, flag_in. simpl.
  destruct (existsb (String.eqb f) (flags m)) eqn:E; [exact E|].
  rewrite existsb_app. simpl. now rewrite String.eqb_refl, orb_true_r.
Qed.

Lemma flag_in_del (f : string) (m : Msg) :
  flag_in f (flags (del_flag f m)) = false.
Proof.
  unfold del_flag, flag_in. simpl.
  induction (flags m) as [|g l IH]; simpl; [reflexivity|].
  destruct (String.eqb f g) eqn:E; simpl; [exact IH|].
  now rewrite E, IH.
Qed.

Lemma current_inv (w : World) (name : string) (wr : bool) (msgs : list Msg) :
  current w = Some (name, wr, msgs) ->
  lookup_box name (boxes w) = Some msgs /\
  exists ro, opened w = Some (name, ro).
Proof.
  unfold current. destruct (opened w) as [[n ro]|]; [|discriminate].
  destruct (lookup_box n (boxes w)) as [l|] eqn:E; [|discriminate].
  intros [= <- _ <-]. split; [exact E | now exists ro].
Qed.

(** A change of a message that succeeded. *)
Lemma w_store_ok (id : Z) (g : Msg -> Msg) (w w' : World) :
  w_store id g w = (None, w') ->
  exists name msgs,
    current w = Some (name, true, msgs) /\ in_range id msgs = true /\
    boxes w' = update_box name (at_seqno id g) (boxes w).
Proof.
  unfold w_store. pose proof (next_fault_current w) as C.
  pose proof (next_fault_boxes w) as B.
  destruct (next_fault w) as [[e|] w1]; [discriminate|]. simpl in C, B.
  rewrite C. destruct (current w) as [[[n wr] msgs]|]; [|discriminate].
  destruct wr; simpl; [|discriminate].
  destruct (in_range id msgs) eqn:R; simpl; [|discriminate].
  intros [= <-]. exists n, msgs. simpl. now rewrite B.
Qed.

(** The seen flag of a message after a change of it. *)
Lemma seen_after (name : string) (id : Z) (g : Msg -> Msg) (w w' : World)
    (msgs : list Msg) (v : bool) :
  lookup_box name (boxes w) = Some msgs -> in_range id msgs = true ->
  boxes w' = update_box name (at_seqno id g) (boxes w) ->
  (forall m, flag_in Seen (flags (g m)) = v) ->
  seen_flag name id w' = Some v.
Proof.
  intros L R B G. unfold seen_flag. rewrite B, lookup_update_box, L. simpl.
  unfold at_seqno. rewrite numbered_map, filter_numbered_map.
  unfold in_range in R. apply andb_true_iff in R as [R1 R2].
  apply Z.leb_le in R1, R2.
  destruct (numbered_find id 1 msgs) as (m & rest & ->); [lia|].
  simpl. rewrite Z.eqb_refl. now rewrite G.
Qed.

(** On the store, a flag that was added is there and a flag that was
    removed is not, in the folder that was opened. *)
Lemma store_addFlags_sets (folder : string) (ro : bool) (id : Z)
    (w w1 w2 : World) :
  w_openBox folder ro w = (None, w1) ->
  w_addFlags id Seen w1 = (None, w2) ->
  seen_flag folder id w2 = Some true.
Proof.
  intros E1 E2. apply w_openBox_ok in E1 as [-> (msgs & L)].
  apply w_store_ok in E2 as (name & msgs' & C & R & B).
  rewrite (with_opened_current _ folder ro msgs) in C
    by now rewrite next_fault_boxes.
  injection C as <- _ <-.
  eapply seen_after; [| exact R | exact B | intros; apply flag_in_add].
  simpl. now rewrite !next_fault_boxes.
Qed.

Lemma store_delFlags_clears (folder : string) (ro : bool) (id : Z)
    (w w1 w2 : World) :
  w_openBox folder ro w = (None, w1) ->
  w_delFlags id Seen w1 = (None, w2) ->
  seen_flag folder id w2 = Some false.
Proof.
  intros E1 E2. apply w_openBox_ok in E1 as [-> (msgs & L)].
  apply w_store_ok in E2 as (name & msgs' & C & R & B).
  rewrite (with_opened_current _ folder ro msgs) in C
    by now rewrite next_fault_boxes.
  injection C as <- _ <-.
  eapply seen_after; [| exact R | exact B | intros; apply flag_in_del].
  simpl. now rewrite !next_fault_boxes.
Qed.

(** ** The mutation engine *)

Section Mutation.

Context {W : Type} (imap : Client.t W).

Lemma mark_as_read_folder (folder : string) (id : Z) (s : State W) :
  selectedFolder (snd (run imap (mark_as_read folder id) s))
  = selectedFolder s.
Proof.
  unfold mark_as_read. cbn [run].
  destruct (Client.openBox imap folder true (world s)) as [[e|] w1];
    cbn [run emit fst snd world selectedFolder]; [reflexivity|].
  destruct (Client.seq_addFlags imap id Seen w1) as [[e|] w2]; reflexivity.
Qed.

Lemma mark_as_unread_folder (folder : string) (id : Z) (s : State W) :
  selectedFolder (snd (run imap (mark_as_unread folder id) s))
  = selectedFolder s.
Proof.
  unfold mark_as_unread. cbn [run].
  destruct (Client.openBox imap folder true (world s)) as [[e|] w1];
    cbn [run emit fst snd world selectedFolder]; [reflexivity|].
  destruct (Client.seq_delFlags imap id Seen w1) as [[e|] w2]; reflexivity.
Qed.

Section RoundTrip.

(** The seen flag of a message of a folder, as a view of the state behind
    the client, and what the two calls that change it do when they
    succeed. *)
Variable seen : W -> string -> Z -> option bool.

Hypothesis addFlags_sets :
  forall folder id w w1 w2,
    Client.openBox imap folder true w = (None, w1) ->
    Client.seq_addFlags imap id Seen w1 = (None, w2) ->
    seen w2 folder id = Some true.

Hypothesis delFlags_clears :
  forall folder id w w1 w2,
    Client.openBox imap folder true w = (None, w1) ->
    Client.seq_delFlags imap id Seen w1 = (None, w2) ->
    seen w2 folder id = Some false.

Lemma mark_as_read_seen (folder : string) (id : Z) (s : State W) :
  responses (fst (run imap (mark_as_read folder id) s))
  = [(200, Message "Email marked as seen")] ->
  seen (world (snd (run imap (mark_as_read folder id) s))) folder id
  = Some true.
Proof.
  unfold mark_as_read. cbn [run].
  destruct (Client.openBox imap folder true (world s)) as [[e|] w1] eqn:E1;
    cbn [run emit fst snd world responses]; [discriminate|].
  destruct (Client.seq_addFlags imap id Seen w1) as [[e|] w2] eqn:E2;
    cbn [run emit fst snd world responses]; [discriminate|].
  intros _. eapply addFlags_sets; eassumption.
Qed.

Lemma mark_as_unread_unseen (folder : string) (id : Z) (s : State W) :
  responses (fst (run imap (mark_as_unread folder id) s))
  = [(200, Message "Email marked as unread")] ->
  seen (world (snd (run imap (mark_as_unread folder id) s))) folder id
  = Some false.
Proof.
  unfold mark_as_unread. cbn [run].
  destruct (Client.openBox imap folder true (world s)) as [[e|] w1] eqn:E1;
    cbn [run emit fst snd world responses]; [discriminate|].
  destruct (Client.seq_delFlags imap id Seen w1) as [[e|] w2] eqn:E2;
    cbn [run emit fst snd world responses]; [discriminate|].
  intros _. eapply delFlags_clears; eassumption.
Qed.

(** C9 (as amended): with a client whose addFlags puts the flag and whose
    delFlags takes it away, when markRead and then markUnread of the same
    message are both answered with success, the message is unseen, whatever
    its flag was, so that the flag is the original one exactly when the
    message was unseen; when markUnread and then markRead are both answered
    with success, the message is seen, and the flag is the original one
    exactly when the message was seen. *)
Theorem mark_round_trip (id : Z) (s : State W) :
  let folder := selectedFolder s in
  (responses (fst (markRead imap id s))
   = [(200, Message "Email marked as seen")] ->
   responses (fst (markUnread imap id (snd (markRead imap id s))))
   = [(200, Message "Email marked as unread")] ->
   seen (world (snd (markUnread imap id (snd (markRead imap id s)))))
        folder id
   = Some false /\
   (seen (world (snd (markUnread imap id (snd (markRead imap id s)))))
         folder id
    = seen (world s) folder id <->
    seen (world s) folder id = Some false))
  /\
  (responses (fst (markUnread imap id s))
   = [(200, Message "Email marked as unread")] ->
   responses (fst (markRead imap id (snd (markUnread imap id s))))
   = [(200, Message "Email marked as seen")] ->
   seen (world (snd (markRead imap id (snd (markUnread imap id s)))))
        folder id
   = Some true /\
   (seen (world (snd (markRead imap id (snd (markUnread imap id s)))))
         folder id
    = seen (world s) folder id <->
    seen (world s) folder id = Some true)).
Proof.
  intros folder. unfold markRead, markUnread.
  rewrite mark_as_read_folder, mark_as_unread_folder. fold folder.
  split; intros _ H2.
  - apply mark_as_unread_unseen in H2. rewrite H2.
    split; [reflexivity|]. split; intros H; now rewrite <- H.
  - apply mark_as_read_seen in H2. rewrite H2.
    split; [reflexivity|]. split; intros H; now rewrite <- H.
Qed.

End RoundTrip.

(** What /delete-email does, in order. *)
Lemma delete_email_flow (id : Z) (s : State W) :
  let t := fst (deleteMessage imap id s) in
  (exists res rest, t = OpenBox "Trash" false res :: rest) /\
  (forall res,
      In (Expunge res) t ->
      t = ([OpenBox "Trash" false None; AddFlags id Deleted None;
            Response 200 (Message "Email deleted"); Expunge res]
           ++ match res with
              | Some _ =>
                  [LogError; Response 500 (Message "Error deleting email");
                   Exception]
              | None => []
              end)%list).
Proof.
  unfold deleteMessage, delete_email. cbn [run].
  destruct (Client.openBox imap "Trash" false (world s)) as [[e|] w1];
    cbn [run emit fst snd world].
  { split; [eauto|]. intros res H. in_list H. }
  destruct (Client.seq_addFlags imap id Deleted w1) as [[e|] w2];
    cbn [run emit fst snd world].
  { split; [eauto|]. intros res H. in_list H. }
  destruct (Client.expunge imap w2) as [[e|] w3]; cbn [run emit fst snd world];
    (split; [eauto|]); intros res H; in_list H;
    now injection H as <-.
Qed.

(** C5: a deletion whose expunge fails: after the 200 response the handler
    logs the failure and gives a second response, of status 500, on the
    response that is sent, where [res.json] throws. *)
Theorem delete_email_expunge_failure (id : Z) (s : State W) (e : Err) :
  let t := fst (deleteMessage imap id s) in
  In (Expunge (Some e)) t ->
  t = [OpenBox "Trash" false None; AddFlags id Deleted None;
       Response 200 (Message "Email deleted"); Expunge (Some e);
       LogError; Response 500 (Message "Error deleting email");
       Exception] /\
  responses t = [(200, Message "Email deleted");
                 (500, Message "Error deleting email")].
Proof.
  intros t Hin. subst t.
  destruct (delete_email_flow id s) as [_ H].
  rewrite (H _ Hin). split; reflexivity.
Qed.

End Mutation.

(** ** The page and the page size of a query *)

Lemma has_digit_trimStart (s : string) :
  has_digit s = false -> has_digit (JS.trimStart s) = false.
Proof.
  induction s as [|c s IH]; simpl; [reflexivity|].
  intros H. apply orb_false_iff in H as [Hc Hs].
  destruct (JS.isWhiteSpace c); [now apply IH|].
  simpl. now rewrite Hc, Hs.
Qed.

(** A text without a decimal digit is not a number for [parseInt]. *)
Lemma parseInt_no_digit (s : string) :
  has_digit s = false -> JS.parseInt s = None.
Proof.
  intros H. apply has_digit_trimStart in H. unfold JS.parseInt.
  destruct (JS.trimStart s) as [|c r]; [reflexivity|].
  simpl in H. apply orb_false_iff in H as [Hc Hr].
  destruct c as [[] [] [] [] [] [] [] []];
    try discriminate Hc; try reflexivity;
    (destruct r as [|c2 r2]; [reflexivity|]);
    simpl in Hr; apply orb_false_iff in Hr as [Hc2 _];
    destruct c2 as [[] [] [] [] [] [] [] []];
    try discriminate Hc2; reflexivity.
Qed.

Lemma numOr_not_zero (n : option Z) (d : Z) : d <> 0 -> JS.numOr n d <> 0.
Proof. intros Hd. destruct n as [[|p|p]|]; simpl; easy. Qed.

Lemma numOr_default (n : option Z) (d : Z) :
  n = None \/ n = Some 0 -> JS.numOr n d = d.
Proof. now intros [-> | ->]. Qed.

Lemma numOr_kept (n d : Z) : n <> 0 -> JS.numOr (Some n) d = n.
Proof. destruct n; simpl; easy. Qed.

(** C10 (as amended): an absent page parameter, one without a decimal
    digit, one that [parseInt] does not read as a number and one that it
    reads as 0 give page 1, and in the same way the perPage parameter gives
    page size 10; every other number is kept as it is, a negative one
    included, so that the page size is never 0, the division of
    [totalPages] is never one by 0, and the page size is positive exactly
    when perPage is not read as a negative number. *)
Theorem paging_defaults (q : Query) :
  ((q_page q = None -> page_of q = 1) /\
   (forall t, q_page q = Some t -> has_digit t = false -> page_of q = 1) /\
   (JS.parseIntParam (q_page q) = None \/
    JS.parseIntParam (q_page q) = Some 0 -> page_of q = 1)) /\
  ((q_perPage q = None -> pageSize_of q = 10) /\
   (forall t, q_perPage q = Some t -> has_digit t = false ->
              pageSize_of q = 10) /\
   (JS.parseIntParam (q_perPage q) = None \/
    JS.parseIntParam (q_perPage q) = Some 0 -> pageSize_of q = 10)) /\
  (forall n, JS.parseIntParam (q_perPage q) = Some n -> n <> 0 ->
             pageSize_of q = n) /\
  page_of q <> 0 /\ pageSize_of q <> 0 /\
  (0 < pageSize_of q <->
   ~ exists n, JS.parseIntParam (q_perPage q) = Some n /\ n < 0) /\
  (forall W (imap : Client.t W) simpleParser now s emails p ps tp tm,
      In (Response 200 (Page emails p ps tp tm))
         (fst (run imap (get_emails simpleParser now q) s)) ->
      ps = pageSize_of q /\ ps <> 0 /\ tp = JS.ceilDiv tm ps).
Proof.
  unfold page_of, pageSize_of.
  split; [|split; [|split; [|split; [|split; [|split]]]]].
  - split; [now intros ->|]. split; [|apply numOr_default].
    intros t -> H. simpl. now rewrite (parseInt_no_digit t H).
  - split; [now intros ->|]. split; [|apply numOr_default].
    intros t -> H. simpl. now rewrite (parseInt_no_digit t H).
  - intros n -> Hn. now apply numOr_kept.
  - now apply numOr_not_zero.
  - now apply numOr_not_zero.
  - destruct (JS.parseIntParam (q_perPage q)) as [[|n|n]|]; simpl; split;
      try lia; try easy.
    + intros _ (m & [= <-] & Hm). lia.
    + intros _ (m & [= <-] & Hm). lia.
    + intros H. elim H. exists (Z.neg n). split; [reflexivity | lia].
    + intros _ (m & Hm & _). discriminate.
  - intros W imap simpleParser now s emails p ps tp tm Hin.
    fold (pageSize_of q).
    pose proof (get_emails_listing imap simpleParser now q s) as L.
    set (r := run imap (get_emails simpleParser now q) s) in *.
    destruct L; in_list Hin. injection Hin as _ _ <- <- <-.
    split; [reflexivity|]. split; [|reflexivity].
    now apply numOr_not_zero.
Qed.

(** ** The handlers on the store *)

(** What the store was when a listing got its messages. *)
Lemma listing_store (s : State World) (keys : list string) (selected : string)
    (ids results : list Z) (messages : list Fetched) (w1 w2 w3 w4 : World) :
  w_getBoxes (world s) = (inr keys, w1) ->
  w_openBox selected true w1 = (None, w2) ->
  w_search w2 = (inr results, w3) ->
  w_fetch ids fetchOptions w3 = (inr messages, w4) ->
  keys = map fst (boxes (world s)) /\
  exists msgs,
    lookup_box selected (boxes (world s)) = Some msgs /\
    results = map uid msgs /\
    messages = map fetched (select (delivery (world s)) ids msgs).
Proof.
  intros H1 H2 H3 H4.
  apply w_getBoxes_ok in H1 as [-> ->]. split; [reflexivity|].
  apply w_openBox_ok in H2 as [-> (msgs & L)].
  rewrite next_fault_boxes in L. exists msgs. split; [exact L|].
  apply w_search_ok in H3 as [-> (n & wr & msgs' & C & ->)].
  apply w_fetch_ok in H4 as (n' & wr' & msgs'' & C' & ->).
  rewrite next_fault_current in C'. rewrite C in C'. injection C' as _ _ <-.
  rewrite (with_opened_current _ selected true msgs) in C
    by now rewrite !next_fault_boxes.
  injection C as _ _ <-. split; [reflexivity|].
  do 2 f_equal.
  rewrite (proj1 (next_fault_policy _)). simpl.
  rewrite (proj1 (next_fault_policy _)).
  now rewrite (proj1 (next_fault_policy _)).
Qed.

(** A listing on the store, with a server that delivers in the order of
    the request and mailboxes whose identifiers grow with the position:
    the emails come newest first. *)
Lemma store_listing_descending (simpleParser : string -> option ParsedMail)
    (now : string) (q : Query) (s : State World) (emails : list Email)
    (p ps tp tm : Z) :
  In (Response 200 (Page emails p ps tp tm))
     (fst (run storeClient (get_emails simpleParser now q) s)) ->
  delivery (world s) = AsRequested ->
  (forall name msgs,
      lookup_box name (boxes (world s)) = Some msgs ->
      StronglySorted Z.lt (map uid msgs)) ->
  descending (map e_id emails).
Proof.
  intros Hin HD HS.
  pose proof (get_emails_listing storeClient simpleParser now q s) as L.
  set (r := run storeClient (get_emails simpleParser now q) s) in *.
  destruct L; in_list Hin.
  injection Hin as -> _ _ _ _.
  match goal with
  | H : all_emails _ _ _ = Some _ |- _ => apply all_emails_ids in H as HI
  end.
  match goal with
  | H1 : Client.getBoxes _ _ = _, H2 : Client.openBox _ _ _ _ = _,
    H3 : Client.search _ _ = _, H4 : Client.fetch _ _ _ _ = _ |- _ =>
      destruct (listing_store _ _ _ _ _ _ _ _ _ _ H1 H2 H3 H4)
        as (_ & msgs & Lk & -> & ->)
  end.
  rewrite HI, HD.
  apply select_as_requested_descending;
    [now apply (HS selected) | apply page_slice_descending].
Qed.

(** A fetch of the store delivers no more messages than identifiers were
    asked for, the identifiers of each mailbox being distinct. *)
Lemma store_fetch_bounded (ids : list Z) (o : FetchOptions) (w w' : World)
    (ms : list Fetched) :
  (forall name msgs,
      lookup_box name (boxes w) = Some msgs -> NoDup (map uid msgs)) ->
  w_fetch ids o w = (inr ms, w') ->
  (List.length ms <= List.length ids)%nat.
Proof.
  intros HN H. apply w_fetch_ok in H as (name & wr & msgs & C & ->).
  apply current_inv in C as [L _]. rewrite length_map.
  apply select_length. now apply (HN name).
Qed.

(** ** The properties on the sample stores *)

(** C1 on a client that refuses an empty list of identifiers: page 1 of
    an empty INBOX, and page 4 of 25 messages in pages of 10, are answered
    by the 500 response. *)
Lemma listing_page_counts_witness :
  responses
    (fst (run strictClient
            (get_emails sampleParser "now"
               (query (Some "INBOX") (Some "1") (Some "10")))
            (sampleState [("INBOX", [])] AsRequested)))
  = [(500, Message "Error fetching emails")] /\
  responses
    (fst (run strictClient
            (get_emails sampleParser "now"
               (query (Some "inbox") (Some "4") (Some "10")))
            (sampleState [("INBOX", fresh 25 0)] AsRequested)))
  = [(500, Message "Error fetching emails")].
Proof.
  assert (Hstrict : forall o w,
             exists e, fst (Client.fetch strictClient [] o w) = inl e)
    by (intros o w; eexists; reflexivity).
  split.
  - destruct (proj1 (proj2 (listing_page_counts strictClient sampleParser
                              "now"
                              (query (Some "INBOX") (Some "1") (Some "10"))
                              (sampleState [("INBOX", [])] AsRequested)
                              ltac:(vm_compute; discriminate)
                              ltac:(vm_compute; discriminate)
                              ltac:(unfold exact_paging; repeat split;
                                    vm_compute; discriminate)))
                []
                ltac:(cbv; repeat (first [left; reflexivity | right]))
                ltac:(vm_compute; discriminate))
      as (_ & Hr & _).
    exact (proj1 (Hr Hstrict)).
  - destruct (proj1 (proj2 (listing_page_counts strictClient sampleParser
                              "now"
                              (query (Some "inbox") (Some "4") (Some "10"))
                              (sampleState [("INBOX", fresh 25 0)]
                                           AsRequested)
                              ltac:(vm_compute; discriminate)
                              ltac:(vm_compute; discriminate)
                              ltac:(unfold exact_paging; repeat split;
                                    vm_compute; discriminate)))
                (map uid (fresh 25 0))
                ltac:(cbv; repeat (first [left; reflexivity | right]))
                ltac:(vm_compute; discriminate))
      as (_ & Hr & _).
    exact (proj1 (Hr Hstrict)).
Defined.



(** C3: a server that delivers in the order of the mailbox makes the page
    ascending. *)
Lemma emails_not_newest_first :
  exists emails,
    responses
      (fst (run storeClient
              (get_emails sampleParser "now" (query None None None))
              (sampleState [("INBOX", fresh 3 0)] MailboxOrder)))
    = [(200, Page emails 1 10 1 3)] /\
    map e_id emails = [1; 2; 3] /\
    ~ descending (map e_id emails).
Proof.
  eexists. split; [reflexivity|]. split; [reflexivity|].
  simpl. intros H. inversion H as [|? ? _ F]; subst.
  inversion F as [|? ? H12 _]; subst. lia.
Qed.

(** C3 as amended, on a server that delivers in the order of the
    request. *)
Lemma emails_in_delivery_order_witness :
  exists emails ids delivered,
    In (Fetch ids fetchOptions (inr delivered))
       (fst (run storeClient
               (get_emails sampleParser "now" (query None None None))
               (sampleState [("INBOX", fresh 3 0)] AsRequested))) /\
    descending ids /\
    map e_id emails = map seqno delivered /\
    (descending (map e_id emails) <-> descending (map seqno delivered)).
Proof.
  eexists.
  apply (emails_in_delivery_order storeClient sampleParser "now"
           (query None None None)
           (sampleState [("INBOX", fresh 3 0)] AsRequested) _ 1 10 1 3).
  cbv. do 6 right. left. reflexivity.
Defined.



(** C5 on a store whose third call, the expunge, fails. *)
Lemma delete_email_expunge_failure_witness :
  responses
    (fst (deleteMessage storeClient 1
            (failingState [("Trash", fresh 2 0)] 3)))
  = [(200, Message "Email deleted");
     (500, Message "Error deleting email")].
Proof.
  apply (delete_email_expunge_failure storeClient 1
           (failingState [("Trash", fresh 2 0)] 3) (Error "failure")).
  cbv. do 3 right. left. reflexivity.
Defined.

(** C6: a subject that starts with "Re: Re: " is sent as it is. *)
Lemma reply_subject_twice_kept :
  JS.startsWith "Re: Re: hello" "Re: " = true /\
  JS.startsWith (reply_subject "Re: Re: hello") "Re: Re: " = true /\
  exists m,
    In (SendMail m None)
       (fst (run storeClient
               (send_reply sampleParser "INBOX" "bob" (Some "hi") 1)
               (sampleState
                  [("INBOX", [{| uid := 1; flags := [];
                                 raw := "Re: Re: hello" |}]);
                   ("Sent", [])] AsRequested))) /\
    JS.startsWith (m_subject m) "Re: Re: " = true.
Proof.
  split; [reflexivity|]. split; [reflexivity|].
  eexists. split; [cbv; do 2 right; left; reflexivity | reflexivity].
Qed.

(** C6 as amended, on a subject that starts with "Re: ". *)
Lemma reply_subject_once_witness :
  reply_subject "Re: hello" = "Re: hello" /\
  JS.startsWith (reply_subject "Re: hello") "Re: Re: " = false.
Proof.
  destruct (proj1 (reply_subject_once storeClient sampleParser) "Re: hello")
    as (K & _ & _ & N).
  split; [apply K; reflexivity | apply N; reflexivity].
Defined.


(** C8 on a message of the store that names no receiver. *)
Lemma send_reply_without_receiver_witness :
  fst (run storeClient
         (send_reply parserNoReceiver "INBOX" "bob" (Some "hi") 1)
         (sampleState [("INBOX", fresh 1 0); ("Sent", [])] AsRequested))
  = [OpenBox "INBOX" false None;
     SeqFetch 1 fetchOptions
       (Some {| seqno := 1; attrs_flags := []; stream := "hello" |});
     SendMail
       (replyEmail "bob" "alice@localhost" "Re: hello"
          "hi<br/><br/>On undefined, alice@localhost wrote:<br/><br/>undefined"
          None) None;
     Response 200 (Message "Reply sent");
     Exception].
Proof.
  apply (send_reply_without_receiver storeClient parserNoReceiver
           "INBOX" "bob" (Some "hi") 1
           (sampleState [("INBOX", fresh 1 0); ("Sent", [])] AsRequested)
           (replyEmail "bob" "alice@localhost" "Re: hello"
              "hi<br/><br/>On undefined, alice@localhost wrote:<br/><br/>undefined"
              None)
           {| seqno := 1; attrs_flags := []; stream := "hello" |}
           (Build_ParsedMail (Some "alice@localhost") None (Some "hello")
              None None None None)).
  - cbv. do 2 right. left. reflexivity.
  - cbv. right. left. reflexivity.
  - reflexivity.
  - reflexivity.
Defined.

(** C9: a message that was seen is unseen after markRead and markUnread;
    a message that was unseen is seen after markUnread and markRead. *)
Lemma mark_round_trip_not_restored :
  let seen := sampleState [("INBOX", [{| uid := 1; flags := [Seen];
                                          raw := "hello" |}])] AsRequested in
  let unseen := sampleState [("INBOX", fresh 1 0)] AsRequested in
  (seen_flag "INBOX" 1 (world seen) = Some true /\
   responses (fst (markRead storeClient 1 seen))
   = [(200, Message "Email marked as seen")] /\
   responses
     (fst (markUnread storeClient 1 (snd (markRead storeClient 1 seen))))
   = [(200, Message "Email marked as unread")] /\
   seen_flag "INBOX" 1
     (world (snd (markUnread storeClient 1
                    (snd (markRead storeClient 1 seen)))))
   = Some false) /\
  (seen_flag "INBOX" 1 (world unseen) = Some false /\
   responses (fst (markUnread storeClient 1 unseen))
   = [(200, Message "Email marked as unread")] /\
   responses
     (fst (markRead storeClient 1 (snd (markUnread storeClient 1 unseen))))
   = [(200, Message "Email marked as seen")] /\
   seen_flag "INBOX" 1
     (world (snd (markRead storeClient 1
                    (snd (markUnread storeClient 1 unseen)))))
   = Some true).
Proof. repeat split; reflexivity. Qed.

(** C9 as amended, on a message that was unseen. *)
Lemma mark_round_trip_witness :
  seen_flag "INBOX" 1
    (world
       (snd (markUnread storeClient 1
               (snd (markRead storeClient 1
                       (sampleState [("INBOX", fresh 1 0)] AsRequested))))))
  = Some false.
Proof.
  apply (proj1 (mark_round_trip storeClient
                  (fun w folder id => seen_flag folder id w)
                  (fun folder id w w1 w2 =>
                     store_addFlags_sets folder true id w w1 w2)
                  (fun folder id w w1 w2 =>
                     store_delFlags_clears folder true id w w1 w2)
                  1 (sampleState [("INBOX", fresh 1 0)] AsRequested)));
    reflexivity.
Defined.

(** C10: a negative perPage is kept as the page size. *)
Lemma negative_page_size :
  pageSize_of (query None None (Some "-5")) = -5 /\
  ~ 0 < pageSize_of (query None None (Some "-5")) /\
  exists emails,
    responses
      (fst (run storeClient
              (get_emails sampleParser "now" (query None None (Some "-5")))
              (sampleState [("INBOX", fresh 25 0)] AsRequested)))
    = [(200, Page emails 1 (-5) (-5) 25)].
Proof.
  split; [reflexivity|]. split; [vm_compute; discriminate|].
  eexists. vm_compute. reflexivity.
Qed.

(** C10 as amended, on a page that is no number and a perPage of 0. *)
Lemma paging_defaults_witness :
  page_of (query None (Some "abc") (Some "0")) = 1 /\
  pageSize_of (query None (Some "abc") (Some "0")) = 10.
Proof.
  destruct (paging_defaults (query None (Some "abc") (Some "0")))
    as ((_ & P & _) & (_ & _ & S) & _).
  split; [apply (P "abc"); reflexivity | apply S; right; reflexivity].
Defined.

(** * More about the handlers *)

Ltac in_events H :=
  simpl in H;
  repeat (match type of H with
          | _ \/ _ => destruct H as [H|H]
          | False => contradiction
          end; try discriminate).

(** ** The answers of /get-emails *)

Lemma strOr_not_empty (s : option string) (d : string) :
  d <> "" -> JS.strOr s d <> "".
Proof. intros Hd. destruct s as [[|c r]|]; simpl; easy. Qed.

Section ListingAnswers.

Context {W : Type} (imap : Client.t W).
Variable simpleParser : string -> option ParsedMail.
Variable now : string.


(** X2: /get-emails makes the folder it found the selected folder before it
    opens it, so that the selected folder is the folder of the open call
    even when that call fails; a run that opens no folder leaves the
    selected folder as it is. *)
Theorem get_emails_selects (q : Query) (s : State W) :
  let r := run imap (get_emails simpleParser now q) s in
  (forall name ro res,
      In (OpenBox name ro res) (fst r) ->
      selectedFolder (snd r) = name /\ name <> "" /\
      folder_matches (folder_of q) name) /\
  ((forall name ro res, ~ In (OpenBox name ro res) (fst r)) ->
   selectedFolder (snd r) = selectedFolder s).
Proof.
  cbv zeta.
  destruct (get_emails_listing imap simpleParser now q s);
    cbn [fst snd selectedFolder]; split.
  all: try (intros name ro res HX; in_events HX; fail).
  all: try (intros name ro res HX; in_events HX; injection HX as <- _ _;
            split; [reflexivity|]; split; [assumption|];
            match goal with
            | F : find_folder _ _ = Some _ |- _ =>
                apply find_folder_first in F as (l1 & l2 & _ & M & _);
                exact M
            end).
  all: try (intros _; reflexivity).
  all: intros HX; exfalso; eapply HX; simpl; auto 10.
Qed.

Lemma all_emails_In (l : list Fetched) (es : list Email) (e : Email) :
  all_emails simpleParser now l = Some es -> In e es ->
  exists m, In m l /\ to_email simpleParser now m = Some e.
Proof.
  revert es. induction l as [|m l IH]; simpl; intros es.
  - intros [= <-] [].
  - destruct (to_email simpleParser now m) as [e0|] eqn:E; [|discriminate].
    destruct (all_emails simpleParser now l) as [es'|]; [|discriminate].
    intros [= <-] [<-|Hin].
    + exists m. auto.
    + destruct (IH es' eq_refl Hin) as (m' & Hm & He). exists m'. auto.
Qed.

(** X3: every email of a page stands for a message that the fetch delivered:
    it has the sequence number of the message, is seen exactly when the
    flags of the message hold \Seen, and none of its sender, receiver,
    subject, text and html is empty, "N/A" standing for what the message
    lacks or has empty; the date is that of the message or the current
    time. *)
Theorem page_emails_normalized (q : Query) (s : State W)
    (emails : list Email) (p ps tp tm : Z) (e : Email) :
  In (Response 200 (Page emails p ps tp tm))
     (fst (run imap (get_emails simpleParser now q) s)) ->
  In e emails ->
  (e_from e <> "" /\ e_to e <> "" /\ e_subject e <> "" /\ e_text e <> "" /\
   e_html e <> "" /\ (now <> "" -> e_date e <> "")) /\
  exists ids ms m parsed,
    In (Fetch ids fetchOptions (inr ms))
       (fst (run imap (get_emails simpleParser now q) s)) /\
    In m ms /\ simpleParser (stream m) = Some parsed /\
    e_id e = seqno m /\
    e_seen e = flag_in Seen (attrs_flags m) /\
    (e_subject e = "N/A" <->
     subject parsed = None \/ subject parsed = Some "" \/
     subject parsed = Some "N/A") /\
    (e_date e = match date parsed with
                | Some EmptyString | None => now
                | Some d => d
                end).
Proof.
  intros Hin He.
  pose proof (get_emails_listing imap simpleParser now q s) as L.
  set (r := run imap (get_emails simpleParser now q) s) in *.
  destruct L; in_events Hin.
  injection Hin as -> _ _ _ _.
  match goal with
  | H : all_emails _ _ _ = Some _ |- _ =>
      destruct (all_emails_In _ _ _ H He) as (m & Hm & Hto)
  end.
  unfold to_email in Hto.
  destruct (simpleParser (stream m)) as [parsed|] eqn:EP; [|discriminate].
  injection Hto as <-. cbn [e_from e_to e_subject e_text e_html e_date
                           e_id e_seen].
  split.
  - repeat split; first [apply strOr_not_empty; discriminate
                        | apply strOr_not_empty].
  - exists (page_slice results (page_of q) (pageSize_of q)), messages, m,
      parsed.
    split; [simpl; auto 10|]. split; [exact Hm|]. split; [exact EP|].
    split; [reflexivity|]. split; [reflexivity|]. split.
    + destruct (subject parsed) as [[|c0 r0]|]; simpl; split.
      * intros _. right. now left.
      * reflexivity.
      * intros HS. right. right. f_equal. exact HS.
      * intros [HS|[HS|HS]]; congruence.
      * intros _. now left.
      * reflexivity.
    + now destruct (date parsed) as [[|c0 r0]|].
Qed.

End ListingAnswers.

(** ** The pages of a listing *)

Lemma firstn_plus {A : Type} (a b : nat) (l : list A) :
  firstn (a + b)%nat l = (firstn a l ++ firstn b (skipn a l))%list.
Proof.
  revert l. induction a as [|a IH]; intros l; simpl; [reflexivity|].
  destruct l as [|x l]; simpl; [now rewrite firstn_nil | now rewrite IH].
Qed.

Lemma chunks_concat {A : Type} (k m : nat) (l : list A) :
  List.concat (map (fun i => firstn k (skipn (i * k)%nat l)) (seq 0 m))
  = firstn (m * k)%nat l.
Proof.
  induction m as [|m IH]; [reflexivity|].
  rewrite seq_S, map_app, concat_app, IH. simpl.
  rewrite app_nil_r, <- firstn_plus. f_equal. lia.
Qed.

Lemma page_slice_window (results : list Z) (i : nat) (pageSize : Z) :
  1 <= pageSize ->
  page_slice results (Z.of_nat (S i)) pageSize
  = firstn (Z.to_nat pageSize)
      (skipn (i * Z.to_nat pageSize)%nat (JS.sort newest_first results)).
Proof.
  intros Hs. unfold page_slice. rewrite slice_window by nia.
  do 2 f_equal. nia.
Qed.

(** X4: put one after the other, the pages 1 to [totalPages] of a page size of
    at least 1 are the identifiers of the folder in descending order: every
    identifier is on one page, and the pages follow from newest to
    oldest. *)
Theorem pages_cover (results : list Z) (pageSize : Z) :
  1 <= pageSize ->
  List.concat (all_pages results pageSize) = JS.sort newest_first results /\
  Permutation (List.concat (all_pages results pageSize)) results /\
  descending (List.concat (all_pages results pageSize)).
Proof.
  intros Hs.
  assert (E : List.concat (all_pages results pageSize)
              = JS.sort newest_first results).
  { unfold all_pages.
    set (m := Z.to_nat (JS.ceilDiv (Z.of_nat (List.length results)) pageSize)).
    rewrite <- seq_shift, map_map.
    rewrite (map_ext _ (fun i => firstn (Z.to_nat pageSize)
                                   (skipn (i * Z.to_nat pageSize)%nat
                                      (JS.sort newest_first results))))
      by (intros i; now apply page_slice_window).
    rewrite chunks_concat. apply firstn_all2. rewrite sort_length.
    pose proof (ceilDiv_spec (Z.of_nat (List.length results)) pageSize
                  ltac:(lia)) as C.
    subst m. nia. }
  rewrite E. split; [reflexivity|]. split.
  - apply Permutation_sym, sort_perm.
  - apply sort_descending.
Qed.

(** X5: a page with a number and a size of at least 1 holds [pageSize]
    identifiers as long as that many are left after the pages before it,
    and what is left otherwise: every page before the last is full, the
    last page is not empty, and the pages after it are empty. *)
Theorem page_length (results : list Z) (page pageSize : Z) :
  1 <= page -> 1 <= pageSize ->
  let n := Z.of_nat (List.length results) in
  let totalPages := JS.ceilDiv n pageSize in
  let size := Z.of_nat (List.length (page_slice results page pageSize)) in
  size = Z.min pageSize (Z.max 0 (n - (page - 1) * pageSize)) /\
  (page < totalPages -> size = pageSize) /\
  (page = totalPages -> 1 <= size <= pageSize) /\
  (totalPages < page -> size = 0).
Proof.
  intros Hp Hs n totalPages size.
  assert (E : size = Z.min pageSize (Z.max 0 (n - (page - 1) * pageSize))).
  { subst size n. unfold page_slice. rewrite slice_window by nia.
    rewrite length_firstn, length_skipn, sort_length. nia. }
  pose proof (ceilDiv_spec n pageSize ltac:(lia)) as C.
  fold totalPages in C. split; [exact E|].
  repeat split; intros; nia.
Qed.

(** ** The answers of the mutation engine *)

Section MutationAnswers.

Context {W : Type} (imap : Client.t W).


(** X7: with a server that refuses to change the flags of a mailbox opened
    read-only, /mark-as-read and /mark-as-unread always answer with status
    500: they open the folder read-only before they change the flag. *)
Theorem mark_needs_writable (folder : string) (id : Z) (s : State W) :
  (forall w1 flagCall,
      Client.openBox imap folder true (world s) = (None, w1) ->
      In flagCall [Client.seq_addFlags imap; Client.seq_delFlags imap] ->
      fst (flagCall id Seen w1) <> None) ->
  (exists b, responses (fst (run imap (mark_as_read folder id) s))
             = [(500, b)]) /\
  (exists b, responses (fst (run imap (mark_as_unread folder id) s))
             = [(500, b)]).
Proof.
  intros HR. unfold mark_as_read, mark_as_unread. cbn [run].
  destruct (Client.openBox imap folder true (world s)) as [[e|] w1] eqn:E;
    cbn [run emit fst snd world]; [split; eexists; reflexivity|].
  pose proof (HR w1 _ eq_refl (or_introl eq_refl)) as HA.
  pose proof (HR w1 _ eq_refl (or_intror (or_introl eq_refl))) as HD.
  destruct (Client.seq_addFlags imap id Seen w1) as [[e1|] w2];
    [|now elim HA].
  destruct (Client.seq_delFlags imap id Seen w1) as [[e2|] w3];
    [|now elim HD].
  split; eexists; reflexivity.
Qed.

(** X8: the client of /delete-email receives one response: a 500 when
    the folder is not opened or the flag not set, and else the 200 "Email
    deleted", which is given exactly when the folder was opened and the
    flag set; only then the handler expunges.  When the expunge fails the
    handler calls [res.json] a second time, with a 500, on the response
    that is sent: the call throws, and the run ends with an exception that
    nothing catches.  The folder it opens is "Trash", read-write, whatever
    the selected folder is, which it leaves as it is; the flag it sets is
    \Deleted on the message it is given. *)
Theorem delete_email_answers (id : Z) (s : State W) :
  let r := deleteMessage imap id s in
  (exists first later,
     responses (fst r) = first :: later /\
     (first = (500, Message "Error opening mailbox") \/
      first = (500, Message "Error deleting email") \/
      first = (200, Message "Email deleted")) /\
     (later = [] \/ later = [(500, Message "Error deleting email")]) /\
     (later <> [] <-> exists e, In (Expunge (Some e)) (fst r)) /\
     (later <> [] <-> In Exception (fst r)) /\
     (later <> [] ->
      exists before,
        fst r = (before ++ [Response 500 (Message "Error deleting email");
                            Exception])%list)) /\
  ((exists res, In (Expunge res) (fst r)) <->
   In (200, Message "Email deleted") (responses (fst r))) /\
  (In (200, Message "Email deleted") (responses (fst r)) <->
   In (OpenBox "Trash" false None) (fst r) /\
   In (AddFlags id Deleted None) (fst r)) /\
  (forall name ro res,
      In (OpenBox name ro res) (fst r) -> name = "Trash" /\ ro = false) /\
  (forall id' flag res,
      In (AddFlags id' flag res) (fst r) -> id' = id /\ flag = Deleted) /\
  selectedFolder (snd r) = selectedFolder s.
Proof.
  unfold deleteMessage, delete_email. cbn [run].
  destruct (Client.openBox imap "Trash" false (world s)) as [[e|] w1];
    cbn [run emit fst snd world selectedFolder responses].
  2: destruct (Client.seq_addFlags imap id Deleted w1) as [[e|] w2];
    cbn [run emit fst snd world selectedFolder responses].
  3: destruct (Client.expunge imap w2) as [[e|] w3];
    cbn [run emit fst snd world selectedFolder responses].
  all: split.
  1,3,5,7: do 2 eexists; (split; [reflexivity|]); (split; [auto|]);
    (split; [auto|]).
  all: try (solve [repeat split;
                   try (intros HX; now elim HX);
                   try (intros [e0 HX]; in_events HX; fail);
                   try (intros HX; in_events HX; fail)]).
  all: try (solve [repeat split; try discriminate;
                   [ intros _; eexists; simpl; eauto 10
                   | intros _; simpl; auto 10
                   | intros _;
                     exists [OpenBox "Trash" false None;
                             AddFlags id Deleted None;
                             Response 200 (Message "Email deleted");
                             Expunge (Some e); LogError];
                     reflexivity ]]).
  all: repeat match goal with
         | |- _ /\ _ => split
         | |- _ <-> _ => split
         end.
  all: try reflexivity.
  all: try (intros HZ; destruct HZ as [res HX]; in_events HX; fail).
  all: try (intros HX; in_events HX; fail).
  all: try (intros HZ; destruct HZ as [HX HY]; in_events HX; in_events HY; fail).
  all: try (intros name ro res HX; in_events HX; now injection HX as <- <- _).
  all: try (intros id' flag res HX; in_events HX; now injection HX as <- <- _).
  all: try (intros _; simpl; auto 10; fail).
  all: try (intros _; eexists; simpl; auto 10; fail).
  all: try (intros _; split; simpl; auto 10; fail).
Qed.

End MutationAnswers.

(** ** The answers of /send-reply *)

Section ReplyAnswers.

Context {W : Type} (imap : Client.t W).
Variable simpleParser : string -> option ParsedMail.


(** X10: a reply that /send-reply sends goes to the sender of the message
    replied to, from the user at localhost, and names the message replied
    to by its message id; its text is the text of the request, "undefined"
    if there is none, followed by the date, the sender and the html of the
    message replied to. *)
Theorem reply_mail_composed (folder user : string) (text0 : option string)
    (id : Z) (s : State W) (m : Mail) (res : option Err) :
  In (SendMail m res)
     (fst (run imap (send_reply simpleParser folder user text0 id) s)) ->
  exists f email sender,
    In (SeqFetch id fetchOptions (Some f))
       (fst (run imap (send_reply simpleParser folder user text0 id) s)) /\
    simpleParser (stream f) = Some email /\
    from email = Some sender /\
    m_to m = sender /\
    m_from m = user ++ "@localhost" /\
    m_inReplyTo m = messageId email /\
    m_html m = JS.show text0 ++ "<br/><br/>On " ++ JS.show (date email)
               ++ ", " ++ sender ++ " wrote:<br/><br/>"
               ++ JS.show (textAsHtml email) /\
    JS.startsWith (m_html m) (JS.show text0) = true.
Proof.
  intros Hin.
  pose proof (send_reply_replying imap simpleParser folder user text0 id s)
    as R.
  set (r := run imap (send_reply simpleParser folder user text0 id) s) in *.
  destruct R; try (destruct res0; simpl in Hin); in_events Hin;
    injection Hin as <- _;
    eexists _, _, _; (split; [simpl; auto 10|]);
    (split; [eassumption|]); (split; [eassumption|]);
    repeat (split; [reflexivity|]); apply startsWith_app.
Qed.

(** X11: an append of /send-reply is made to "Sent", after the reply was sent
    with success and answered with status 200, and its failure adds no
    response.  The copy has the receiver of the reply as From, the
    receiver of the message replied to as To, and the subject and the text
    of the reply. *)
Theorem sent_copy (folder user : string) (text0 : option string)
    (id : Z) (s : State W) (rawMessage mailbox : string)
    (res : option Err) :
  In (Append rawMessage mailbox res)
     (fst (run imap (send_reply simpleParser folder user text0 id) s)) ->
  mailbox = "Sent" /\
  responses (fst (run imap (send_reply simpleParser folder user text0 id) s))
  = [(200, Message "Reply sent")] /\
  exists m f email receiver,
    In (SendMail m None)
       (fst (run imap (send_reply simpleParser folder user text0 id) s)) /\
    In (SeqFetch id fetchOptions (Some f))
       (fst (run imap (send_reply simpleParser folder user text0 id) s)) /\
    simpleParser (stream f) = Some email /\
    to email = Some receiver /\
    rawMessage
    = "From: " ++ m_to m ++ CRLF ++
      "To: " ++ receiver ++ CRLF ++
      "Subject: " ++ m_subject m ++ CRLF ++
      "Content-Type: text/html; charset=utf-8" ++ CRLF ++ CRLF ++
      m_html m ++ CRLF.
Proof.
  intros Hin.
  pose proof (send_reply_replying imap simpleParser folder user text0 id s)
    as R.
  set (r := run imap (send_reply simpleParser folder user text0 id) s) in *.
  destruct R; try (destruct res0; simpl in Hin); in_events Hin;
    injection Hin as <- <- _;
    (split; [reflexivity|]); (split; [reflexivity|]);
    eexists _, _, _, _;
    (split; [simpl; auto 10|]); (split; [simpl; auto 10|]);
    (split; [eassumption|]); (split; [eassumption|]); reflexivity.
Qed.

End ReplyAnswers.

(** * The session *)

Section Session.

Import Auth.

Variable connect : Config -> Err + string.
Variable ended closedBox : Connection -> string.
Variable sendMail : Transport -> MailOptions -> option Err.

Local Abbreviation getImap := (Auth.getImap closedBox).
Local Abbreviation imapConnect := (Auth.imapConnect connect).
Local Abbreviation authMiddleware :=
  (Auth.authMiddleware connect ended closedBox).
Local Abbreviation logged_in_handler := (Auth.logged_in_handler closedBox).
Local Abbreviation login_handler :=
  (Auth.login_handler connect ended closedBox).
Local Abbreviation send_email_route :=
  (Auth.send_email_route connect ended closedBox sendMail).
Local Abbreviation serve :=
  (Auth.serve connect ended closedBox sendMail).
Local Abbreviation serve_all :=
  (Auth.serve_all connect ended closedBox sendMail).

Ltac session_cases s :=
  let c := fresh "c" in
  let tr := fresh "tr" in
  let Hopen := fresh "Hopen" in
  destruct s as [[c|] [tr|]]; simpl;
  try (destruct (String.eqb (state c) "open") eqn:Hopen; simpl).

Ltac unfold_session :=
  unfold Auth.authMiddleware, Auth.getImap, Auth.imapAuth,
    Auth.nodeMailerAuth, Auth.getTransporter, Auth.imapConnect,
    Auth.logged_in_handler, Auth.logout_handler, Auth.logout,
    Auth.transport in *.

Lemma getImap_returns (s : Session) :
  fst (fst (getImap s)) = imap (snd (fst (getImap s))).
Proof.
  unfold_session. session_cases s; reflexivity.
Qed.

(** X12: after [logout] both the connection and the transporter are forgotten,
    whatever the session was; what was there has been ended or closed, in
    this order, and nothing else is called. A second [logout] does
    nothing. *)
Theorem logout_forgets (s : Session) :
  let r := logout s in
  fst r = initial /\
  snd r = (match imap s with Some _ => [End] | None => [] end ++
           match transporter s with
           | Some _ => [CloseTransport]
           | None => []
           end)%list /\
  logout (fst r) = (initial, []).
Proof.
  destruct s as [[c|] [tr|]]; repeat split.
Qed.

(** X13: the middleware answers itself exactly when the request has no
    credentials or an empty name or pass; the answer is 401, and then
    nothing is connected or created: at most, the box of the connection is
    closed. *)
Theorem middleware_refuses (Credentials : option (string * string))
    (s : Session) :
  let r := authMiddleware Credentials s in
  ((exists st b, fst (fst r) = Respond st b) <->
   ~ (exists u p, Credentials = Some (u, p) /\ u <> "" /\ p <> "")) /\
  (forall st b, fst (fst r) = Respond st b ->
     st = 401 /\ b = Message "You are not authenticated" /\
     snd (fst r) = snd (fst (getImap s)) /\
     snd r = snd (getImap s)).
Proof.
  unfold_session.
  destruct Credentials as [[[|a u] [|b p]]|]; session_cases s;
    try (destruct (connect _) eqn:Hc; simpl);
    (split; [split|]);
    try (intros [st [b0 H]]; discriminate H);
    try (intros st b0 H; discriminate H);
    try (intros st b0 H; inversion H; subst; repeat split; fail);
    try (intros _; eauto; fail);
    try (intros _ [u0 [p0 [H [Hu Hp]]]]; inversion H; subst; congruence);
    try (intros H; exfalso; apply H; do 2 eexists;
         split; [reflexivity|split; discriminate]).
Qed.

(** X14: with a connection in the session, any request with a name and a pass
    that are not empty goes through to the handler, and /login answers it
    with 200 "Logged in": the middleware connects nothing and compares the
    credentials with nothing, so the connection stays the one made with
    the credentials of an earlier request. *)
Theorem middleware_trusts_connection (u p : string) (c : Connection)
    (s : Session) :
  imap s = Some c -> u <> "" -> p <> "" ->
  let r := authMiddleware (Some (u, p)) s in
  fst (fst r) = Next u p /\
  (exists c1, imap (snd (fst r)) = Some c1 /\ config c1 = config c) /\
  (forall cfg, ~ In (Connect cfg) (snd r)) /\
  ~ In End (snd r) /\
  fst (fst (login_handler (Some (u, p)) s))
  = Respond 200 (Message "Logged in").
Proof.
  intros Hc Hu Hp. unfold Auth.login_handler. unfold_session.
  destruct u as [|a u]; [congruence|]. destruct p as [|b p]; [congruence|].
  session_cases s; simpl in Hc; inversion Hc; subst;
    repeat split; eauto;
    try (intros cfg H; in_events H);
    try (intros H; in_events H).
Qed.

(** X15: when the middleware hands over to the handler, the request had a name
    and a pass that are not empty, they are the [req.credentials], and the
    session has a connection and a transporter. A session that had no
    connection has the one that connecting with this name and pass gave; a
    session that had no transporter has one made for this name and
    pass. *)
Theorem middleware_passes (Credentials : option (string * string))
    (s : Session) (u p : string) :
  let r := authMiddleware Credentials s in
  fst (fst r) = Next u p ->
  Credentials = Some (u, p) /\ u <> "" /\ p <> "" /\
  imap (snd (fst r)) <> None /\ transporter (snd (fst r)) <> None /\
  (imap s = None ->
     imapConnect (imapConfig u p) = inr (A:=Err) {| config := imapConfig u p;
        state := match imap (snd (fst r)) with
                 | Some c => state c | None => "" end |} /\
     option_map config (imap (snd (fst r))) = Some (imapConfig u p) /\
     In (Connect (imapConfig u p)) (snd r)) /\
  (transporter s = None ->
     transporter (snd (fst r)) = Some (transport u p) /\
     In (CreateTransport (transport u p)) (snd r)).
Proof.
  unfold_session.
  destruct Credentials as [[[|a u0] [|b p0]]|]; session_cases s;
    try (destruct (connect _) eqn:Hc; simpl);
    intros H; try discriminate H; inversion H; subst;
    repeat split; try discriminate; try congruence;
    try (intros H0; discriminate H0);
    try (intros _; simpl; rewrite ?Hc; auto 10; fail);
    try (simpl; auto 10; fail);
    try (unfold imapConfig in *; rewrite Hc; reflexivity).
Qed.

(** X16: the middleware is rejected, without an answer, exactly when the
    session has no connection, the request has a name and a pass that are
    not empty and connecting with them fails; the error is the one of the
    connection, the session stays as it was, and no transporter is
    created. *)
Theorem middleware_rejected (Credentials : option (string * string))
    (s : Session) (e : Err) :
  let r := authMiddleware Credentials s in
  (fst (fst r) = Rejected e <->
   imap s = None /\
   exists u p, Credentials = Some (u, p) /\ u <> "" /\ p <> "" /\
     connect (imapConfig u p) = inl e) /\
  (fst (fst r) = Rejected e ->
   snd (fst r) = s /\
   exists u p, Credentials = Some (u, p) /\
     snd r = [ConsoleLog "Connecting to IMAP server";
              Connect (imapConfig u p); ConsoleError; ConsoleError]).
Proof.
  unfold_session.
  destruct Credentials as [[[|a u0] [|b p0]]|]; session_cases s;
    try (destruct (connect _) eqn:Hc; simpl);
    (split; [split|]);
    try (intros H; discriminate H);
    try (intros [H _]; discriminate H);
    try (intros [_ [u [p [H [Hu [Hp Hf]]]]]]; inversion H; subst;
         congruence);
    try (intros H; inversion H; subst; split; [reflexivity|];
         do 2 eexists; repeat split; try discriminate; eauto; fail);
    try (intros H; inversion H; subst; split; [reflexivity|];
         do 2 eexists; split; reflexivity).
Qed.

(** X17: what the middleware calls: it closes a box, connects, creates a
    transporter and writes to the console, and nothing else; it ends no
    connection and closes no transporter. It connects only when the
    session has no connection, and creates a transporter only when the
    session has none, both with the name and the pass of the request. *)
Theorem middleware_calls (Credentials : option (string * string))
    (s : Session) (c : call) :
  In c (snd (authMiddleware Credentials s)) ->
  c <> End /\ c <> CloseTransport /\
  (c = CloseBox ->
     exists c0, imap s = Some c0 /\ state c0 = "open") /\
  (forall cfg, c = Connect cfg ->
     imap s = None /\
     exists u p, Credentials = Some (u, p) /\ cfg = imapConfig u p) /\
  (forall t, c = CreateTransport t ->
     transporter s = None /\
     exists u p, Credentials = Some (u, p) /\ t = transport u p).
Proof.
  unfold_session.
  destruct Credentials as [[[|a u0] [|b p0]]|]; session_cases s;
    try (destruct (connect _) eqn:Hc; simpl);
    intros H; in_events H; subst;
    repeat split; try discriminate;
    try (intros cfg H; discriminate H);
    try (intros cfg H; inversion H; subst; repeat split; eauto; fail);
    try (intros _; eexists; split; [reflexivity|];
         now apply String.eqb_eq);
    try (do 2 eexists; split; [reflexivity|];
         match goal with
         | H0 : _ = Connect _ |- _ => now inversion H0
         | H0 : _ = CreateTransport _ |- _ => now inversion H0
         end).
Qed.

Lemma paired_more (rs : list request) (r : request) (s : Session) :
  paired rs s -> paired (rs ++ [r]) s.
Proof.
  unfold paired. destruct (imap s), (transporter s); auto.
  intros [u [p [H1 [H2 [H3 [H4 [H5 [r0 [H6 H7]]]]]]]]]. exists u, p.
  repeat split; auto.
  exists r0. split; [apply in_or_app|]; auto.
Qed.

Lemma paired_middleware (rs : list request) (r : request)
    (Credentials : option (string * string)) (s : Session) :
  from_request Credentials r ->
  paired rs s ->
  paired (rs ++ [r]) (snd (fst (authMiddleware Credentials s))).
Proof.
  intros Hr H. apply (paired_more rs r) in H. revert H.
  unfold paired. unfold_session.
  destruct Credentials as [[[|a u0] [|b p0]]|]; session_cases s;
    try (destruct (connect _) eqn:Hc; simpl); auto.
  all: try (intros []; fail).
  intros _. exists (String a u0), (String b p0).
  repeat split; try discriminate.
  exists r. split; [apply in_or_app; right; left; reflexivity|assumption].
Qed.

Lemma paired_state (rs : list request) (s : Session)
    (f : Connection -> string) :
  paired rs s ->
  paired rs {| imap := option_map (fun c => with_state c (f c)) (imap s);
               transporter := transporter s |}.
Proof.
  unfold paired. destruct s as [[c|] [tr|]]; simpl; auto.
Qed.

Lemma paired_close (rs : list request) (s : Session) :
  paired rs s ->
  paired rs {| imap := imap s;
               transporter := option_map close (transporter s) |}.
Proof.
  unfold paired. destruct s as [[c|] [tr|]]; simpl; auto.
Qed.

Lemma paired_getImap (rs : list request) (s : Session) :
  paired rs s -> paired rs (snd (fst (getImap s))).
Proof.
  unfold paired. unfold_session. session_cases s; auto.
Qed.

Lemma send_email_session (u : string) (to subject message : option string)
    (s : Session) :
  snd (fst (Auth.send_email sendMail u to subject message s))
  = {| imap := imap s; transporter := option_map close (transporter s) |}.
Proof.
  unfold Auth.send_email, Auth.getTransporter.
  destruct s as [i [t|]]; simpl; [destruct (sendMail _ _)|]; reflexivity.
Qed.

Lemma logged_in_session (s : Session) :
  snd (fst (logged_in_handler s)) = snd (fst (getImap s)).
Proof.
  unfold Auth.logged_in_handler.
  destruct (getImap s) as [[[c|] s1] t]; simpl;
    [destruct (String.eqb _ _)|]; reflexivity.
Qed.

Lemma paired_serve (rs : list request) (r : request) (s : Session) :
  paired rs s ->
  paired (rs ++ [r]) (serve r s).
Proof.
  intros H. destruct r as [cr|cr to subject message|cr st| |]; simpl.
  - apply paired_middleware; [left|]; auto.
  - pose proof (paired_middleware rs (SendEmail cr to subject message) cr s
                  (or_intror (or_introl (ex_intro _ to (ex_intro _ subject
                     (ex_intro _ message eq_refl))))) H) as Hm.
    unfold Auth.send_email_route.
    destruct (authMiddleware cr s) as [[o s1] t]; simpl in Hm.
    destruct o as [u1 p1| |]; auto.
    pose proof (send_email_session u1 to subject message s1) as Hs.
    destruct (Auth.send_email _ _ _ _ _ _) as [[o2 s2] t2].
    simpl in *. subst s2. now apply paired_close.
  - pose proof (paired_middleware rs (Mailbox cr st) cr s
                  (or_intror (or_intror (ex_intro _ st eq_refl))) H) as Hm.
    destruct (authMiddleware cr s) as [[o s1] t]; simpl in Hm.
    destruct o; auto.
    apply (paired_state _ _ (fun _ => st)).
    now apply paired_getImap.
  - destruct s as [[c|] [tr|]]; exact I.
  - apply paired_more. rewrite logged_in_session.
    now apply paired_getImap.
Qed.

Lemma serve_all_snoc (rs : list request) (r : request) (s : Session) :
  serve_all (rs ++ [r]) s = serve r (serve_all rs s).
Proof.
  unfold Auth.serve_all. now rewrite fold_left_app.
Qed.

(** X18: whatever requests have been served, one after the other, from the
    start of the server: the session has a connection and a transporter
    together or neither, and the transporter was made for the name and the
    pass that the connection was made with, which are not empty and are
    those of one of the requests behind the middleware. *)
Theorem session_paired (rs : list request) :
  paired rs (serve_all rs initial).
Proof.
  induction rs as [|r rs IH] using rev_ind.
  - exact I.
  - rewrite serve_all_snoc. now apply paired_serve.
Qed.

(** X21: /send-email answers 401 from the middleware, or 200 "Email sent" or
    500 "Error sending email" after one call of [sendMail]; it is never
    without a transporter behind the middleware. The mail is sent from the
    name of the request at localhost, with the fields of the request as
    they are, and the transporter is closed after either answer and stays
    in the session. *)
Theorem send_email_answers (Credentials : option (string * string))
    (to subject message : option string) (s : Session) :
  let r := send_email_route Credentials to subject message s in
  (forall u p, fst (fst r) <> Next u p) /\
  (forall st b, fst (fst r) = Respond st b ->
     (st = 401 /\ b = Message "You are not authenticated" /\
      forall t o res, ~ In (Send t o res) (snd r)) \/
     exists u p t res,
       Credentials = Some (u, p) /\
       snd r = (snd (authMiddleware Credentials s) ++
                Send t {| o_from := u ++ "@localhost"; o_to := to;
                          o_subject := subject; o_html := message |} res
                :: match res with
                   | Some _ => [ConsoleError; CloseTransport]
                   | None => [CloseTransport]
                   end)%list /\
       res = sendMail t {| o_from := u ++ "@localhost"; o_to := to;
                           o_subject := subject; o_html := message |} /\
       transporter (snd (fst (authMiddleware Credentials s))) = Some t /\
       transporter (snd (fst r)) = Some (close t) /\
       (st, b) = match res with
                 | Some _ => (500, Message "Error sending email")
                 | None => (200, Message "Email sent")
                 end).
Proof.
  unfold Auth.send_email_route, Auth.send_email. unfold_session.
  destruct Credentials as [[[|a u0] [|b p0]]|]; session_cases s;
    try (destruct (connect _) eqn:Hc; simpl);
    try (match goal with
         | |- context [sendMail ?t ?o] => destruct (sendMail t o) eqn:Hs
         end; simpl);
    (split; [discriminate|]); intros st b1 H; inversion H; subst;
    try (left; repeat split; intros t0 o0 res0 Hin; in_events Hin; fail);
    right; do 3 eexists; eexists; (split; [reflexivity|]);
    rewrite ?Hs; simpl; repeat split; rewrite ?Hs; reflexivity.
Qed.

(** X22: the sender of a mail is the name of the request, and with a connection
    in the session that name is checked against nothing: any request with
    a name and a pass that are not empty has its mail handed to the
    transporter of the session, from that name at localhost. *)
Theorem send_email_as_anyone (u p : string)
    (to subject message : option string) (c : Connection) (t : Transport)
    (s : Session) :
  imap s = Some c -> transporter s = Some t -> u <> "" -> p <> "" ->
  let r := send_email_route (Some (u, p)) to subject message s in
  In (Send t {| o_from := u ++ "@localhost"; o_to := to;
                o_subject := subject; o_html := message |}
        (sendMail t {| o_from := u ++ "@localhost"; o_to := to;
                       o_subject := subject; o_html := message |}))
     (snd r) /\
  forall cfg, ~ In (Connect cfg) (snd r).
Proof.
  intros Hc Ht Hu Hp.
  destruct u as [|a u]; [congruence|]. destruct p as [|b p]; [congruence|].
  unfold Auth.send_email_route, Auth.send_email. unfold_session.
  destruct s as [i tr]; simpl in *; subst.
  destruct (String.eqb (state c) "open"); simpl;
    destruct (sendMail t _) eqn:Hs; simpl; split;
    try (intros cfg H; in_events H); auto 10.
Qed.

(** X23: a transporter that has been closed stays the transporter of the
    session until /logout: no request in between creates another one, so
    that every later mail goes to the closed one. *)
Theorem closed_transporter_stays (rs : list request) (t : Transport)
    (s : Session) :
  transporter s = Some t -> closed t = true -> ~ In Logout rs ->
  transporter (serve_all rs s) = Some t.
Proof.
  intros Ht Hcl. revert s Ht.
  induction rs as [|r rs IH]; intros s Ht Hn; [exact Ht|].
  simpl. apply IH; [|intros H; apply Hn; now right].
  assert (Hm : forall cr,
             transporter (snd (fst (authMiddleware cr s))) = Some t).
  { intros cr. unfold_session.
    destruct cr as [[[|a u0] [|b p0]]|]; destruct s as [[c|] tr];
      simpl in *; subst;
      try (destruct (String.eqb (state c) "open"); simpl);
      try (destruct (connect _); simpl); reflexivity. }
  assert (Hclose : close t = t) by (destruct t; simpl in *; now subst).
  destruct r as [cr|cr to subject message|cr st| |]; simpl.
  - apply Hm.
  - specialize (Hm cr). unfold Auth.send_email_route.
    destruct (authMiddleware cr s) as [[o s1] t1]; simpl in Hm.
    destruct o as [u1 p1| |]; auto.
    pose proof (send_email_session u1 to subject message s1) as Hs.
    destruct (Auth.send_email _ _ _ _ _ _) as [[o2 s2] t2].
    simpl in *. subst s2. simpl. rewrite Hm. simpl. now rewrite Hclose.
  - specialize (Hm cr).
    destruct (authMiddleware cr s) as [[o s1] t1]; simpl in Hm.
    destruct o; auto. simpl.
    unfold Auth.getImap. destruct (imap s1) as [c|]; simpl;
      [destruct (String.eqb _ _)|]; exact Hm.
  - exfalso. apply Hn. now left.
  - rewrite logged_in_session.
    unfold Auth.getImap. destruct (imap s) as [c|]; simpl;
      [destruct (String.eqb _ _)|]; exact Ht.
Qed.

(** X19: /logged-in answers 200 when the session has a connection whose state,
    once its box is closed, is "authenticated", and 401 otherwise; it
    answers 401 right after /logout, whatever the session was, and calls
    nothing then. *)
Theorem logged_in_answers (s : Session) :
  let r := logged_in_handler s in
  (fst (fst r) = Respond 200 (Message "Logged in") \/
   fst (fst r) = Respond 401 (Message "Not logged in")) /\
  (fst (fst r) = Respond 200 (Message "Logged in") <->
   exists c, imap (snd (fst r)) = Some c /\ state c = "authenticated") /\
  snd (fst r) = snd (fst (getImap s)) /\
  logged_in_handler (snd (fst (logout_handler s)))
  = (Respond 401 (Message "Not logged in"), initial, []).
Proof.
  assert (Hout : logged_in_handler (snd (fst (logout_handler s)))
                 = (Respond 401 (Message "Not logged in"), initial, [])).
  { destruct s as [[c|] [tr|]]; reflexivity. }
  cbv zeta. rewrite Hout. clear Hout.
  pose proof (getImap_returns s) as Hr.
  unfold Auth.logged_in_handler.
  destruct (getImap s) as [[[c|] s1] t]; simpl in *;
    [destruct (String.eqb (state c) "authenticated") eqn:Hst; simpl|];
    repeat split; auto;
    try (intros H; discriminate H);
    try (intros _; exists c; split; [now symmetry|];
         now apply String.eqb_eq);
    try (intros [c0 [H0 H1]]; rewrite <- Hr in H0; inversion H0; subst;
         apply String.eqb_eq in H1; congruence);
    try (intros [c0 [H0 H1]]; rewrite <- Hr in H0; discriminate H0).
Qed.

(** X20: after /logout, the next request with a name and a pass that are not
    empty connects with them, whoever was logged in before. When the
    connection is made the request goes through, with a session that holds
    that connection and a transporter for this name and pass, and /login
    answers 200; when it is not, the middleware is rejected, the session
    stays empty and /login gives no answer. *)
Theorem login_after_logout (s : Session) (u p : string) :
  u <> "" -> p <> "" ->
  let s1 := snd (fst (logout_handler s)) in
  let r := authMiddleware (Some (u, p)) s1 in
  match connect (imapConfig u p) with
  | inr st =>
      r = (Next u p,
           {| imap := Some {| config := imapConfig u p; state := st |};
              transporter := Some (transport u p) |},
           [ConsoleLog "Connecting to IMAP server";
            Connect (imapConfig u p); ConsoleLog "Connection ready.";
            CreateTransport (transport u p)]) /\
      fst (fst (login_handler (Some (u, p)) s1))
      = Respond 200 (Message "Logged in")
  | inl e =>
      r = (Rejected e, initial,
           [ConsoleLog "Connecting to IMAP server";
            Connect (imapConfig u p); ConsoleError; ConsoleError]) /\
      fst (fst (login_handler (Some (u, p)) s1)) = Rejected e
  end.
Proof.
  intros Hu Hp.
  destruct u as [|a u]; [congruence|]. destruct p as [|b p]; [congruence|].
  unfold Auth.login_handler. unfold_session.
  destruct s as [[c|] [tr|]]; simpl;
    destruct (connect _); split; reflexivity.
Qed.

End Session.

(** * Moving a message *)

Section MoveAnswers.

Context {W : Type} (imap : Client.t W).
Variable seq_move : Z -> string -> W -> option Err * W.

(** X24: /move-to-folder gives exactly one response. It opens the source folder
    of the request for writing, whatever folder is selected, and leaves
    the selected folder as it is; it moves only after the folder is open,
    only the message of the request and only to the folder of the request.
    The response is 200 exactly when the move was made and reported no
    error, and says "Email moved to trash" whatever the folder is. *)
Theorem move_to_folder_answers (id : Z) (sourceFolder folder : string)
    (s : State W) :
  let r := move_to_folder imap seq_move id sourceFolder folder s in
  (exists st b, responses (shared_events (fst r)) = [(st, b)] /\
     (st = 200 <-> In (Move id folder None) (fst r)) /\
     (st = 200 -> b = Message "Email moved to trash") /\
     (st <> 200 -> st = 500 /\ In (Ev LogError) (fst r))) /\
  (forall name ro res, In (Ev (OpenBox name ro res)) (fst r) ->
     name = sourceFolder /\ ro = false /\
     res = fst (Client.openBox imap sourceFolder false (world s))) /\
  (forall id0 folder0 res, In (Move id0 folder0 res) (fst r) ->
     id0 = id /\ folder0 = folder /\
     In (Ev (OpenBox sourceFolder false None)) (fst r)) /\
  selectedFolder (snd r) = selectedFolder s.
Proof.
  unfold move_to_folder.
  destruct (Client.openBox imap sourceFolder false (world s))
    as [[e|] w1] eqn:Hopen; simpl.
  - repeat split.
    + do 2 eexists. split; [reflexivity|]. repeat split; try lia; auto.
      all: intros H; in_events H.
    + in_events H; now inversion H.
    + in_events H; now inversion H.
    + in_events H; now inversion H.
    + in_events H.
    + in_events H.
    + in_events H.
  - destruct (seq_move id folder w1) as [[e|] w2] eqn:Hmove; simpl.
    + repeat split; try (in_events H; now inversion H); auto.
      do 2 eexists. split; [reflexivity|]. repeat split; try lia; auto.
      intros H; in_events H.
    + repeat split; try (in_events H; now inversion H); auto.
      do 2 eexists. split; [reflexivity|]. repeat split; try lia; auto.
Qed.

End MoveAnswers.

(** * The further properties on the samples *)

(** X2: the folder is selected although it could not be opened. *)
Lemma get_emails_selects_witness :
  selectedFolder
    (snd (run storeClient
            (get_emails sampleParser "now" (query (Some "sent") None None))
            (failingState [("INBOX", []); ("Sent Items", fresh 2 0)] 2)))
  = "Sent Items".
Proof.
  apply (proj1 (get_emails_selects storeClient sampleParser "now"
                  (query (Some "sent") None None)
                  (failingState [("INBOX", []); ("Sent Items", fresh 2 0)] 2))
           "Sent Items" true (Some (Error "failure"))).
  cbv. repeat (first [left; reflexivity | right]).
Defined.

(** X3: the one message of a mailbox, as the page gives it. *)
Lemma page_emails_normalized_witness :
  exists e,
    In (Response 200 (Page [e] 1 10 1 1))
       (fst (run storeClient
               (get_emails sampleParser "now" (query None None None))
               (sampleState [("INBOX", fresh 1 0)] AsRequested))) /\
    e_text e <> "" /\ e_date e = "now".
Proof.
  eexists. split.
  - cbv. repeat (first [left; reflexivity | right]).
  - destruct (page_emails_normalized storeClient sampleParser "now"
                (query None None None)
                (sampleState [("INBOX", fresh 1 0)] AsRequested)
                _ 1 10 1 1 _
                ltac:(cbv; repeat (first [left; reflexivity | right]))
                (or_introl eq_refl))
      as [(_ & _ & _ & Ht & _ & _) _].
    split; [exact Ht | reflexivity].
Defined.

(** X4: five messages in pages of two. *)
Lemma pages_cover_witness :
  List.concat (all_pages [3; 1; 2; 5; 4] 2) = [5; 4; 3; 2; 1].
Proof.
  exact (proj1 (pages_cover [3; 1; 2; 5; 4] 2 ltac:(lia))).
Defined.

(** X5: the last of the three pages of 25 messages has five. *)
Lemma page_length_witness :
  Z.of_nat (List.length (page_slice (map Z.of_nat (seq 1 25)) 3 10)) = 5.
Proof.
  exact (proj1 (page_length (map Z.of_nat (seq 1 25)) 3 10
                  ltac:(lia) ltac:(lia))).
Defined.

(** X7: on a store that enforces the read-only opening, no message is
    marked. *)
Lemma mark_needs_writable_witness :
  (exists b,
     responses
       (fst (run storeClient (mark_as_read "INBOX" 1)
               (readOnlyState [("INBOX", fresh 1 0)])))
     = [(500, b)]) /\
  (exists b,
     responses
       (fst (run storeClient (mark_as_unread "INBOX" 1)
               (readOnlyState [("INBOX", fresh 1 0)])))
     = [(500, b)]).
Proof.
  apply (mark_needs_writable storeClient "INBOX" 1
           (readOnlyState [("INBOX", fresh 1 0)])).
  intros w1 flagCall Hopen Hin.
  vm_compute in Hopen. inversion Hopen; subst.
  destruct Hin as [<-|[<-|[]]]; vm_compute; discriminate.
Defined.

(** X10: the reply of bob to the message of alice. *)
Lemma reply_mail_composed_witness :
  exists m,
    In (SendMail m None)
       (fst (run storeClient
               (send_reply sampleParser "INBOX" "bob" (Some "hi") 1)
               (sampleState [("INBOX", fresh 1 0); ("Sent", [])]
                            AsRequested))) /\
    m_to m = "alice@localhost" /\ m_from m = "bob@localhost".
Proof.
  eexists. split.
  - cbv. repeat (first [left; reflexivity | right]).
  - destruct (reply_mail_composed storeClient sampleParser
                "INBOX" "bob" (Some "hi") 1
                (sampleState [("INBOX", fresh 1 0); ("Sent", [])]
                             AsRequested)
                _ None
                ltac:(cbv; repeat (first [left; reflexivity | right])))
      as (f & email & sender & _ & Hp & Hs & Hto & Hfrom & _).
    split; [|exact Hfrom].
    rewrite Hto. unfold sampleParser in Hp. inversion Hp; subst.
    simpl in Hs. now inversion Hs.
Defined.

(** X11: the copy of that reply goes to "Sent" after the answer. *)
Lemma sent_copy_witness :
  responses
    (fst (run storeClient
            (send_reply sampleParser "INBOX" "bob" (Some "hi") 1)
            (sampleState [("INBOX", fresh 1 0); ("Sent", [])]
                         AsRequested)))
  = [(200, Message "Reply sent")].
Proof.
  assert (Hin : exists rawMessage,
             In (Append rawMessage "Sent" None)
                (fst (run storeClient
                        (send_reply sampleParser "INBOX" "bob" (Some "hi") 1)
                        (sampleState [("INBOX", fresh 1 0); ("Sent", [])]
                                     AsRequested)))).
  { eexists. cbv. repeat (first [left; reflexivity | right]). }
  destruct Hin as [rawMessage Hin].
  exact (proj1 (proj2 (sent_copy storeClient sampleParser
                         "INBOX" "bob" (Some "hi") 1 _ _ _ _ Hin))).
Defined.

(** X14: with alice logged in, a request in another name and with another pass
    goes through. *)
Lemma middleware_trusts_connection_witness :
  fst (fst (Auth.authMiddleware Auth.sampleConnect Auth.sampleEnded
              Auth.sampleClosedBox (Some ("mallory", "x")) aliceSession))
  = Auth.Next "mallory" "x".
Proof.
  exact (proj1 (middleware_trusts_connection Auth.sampleConnect
                  Auth.sampleEnded Auth.sampleClosedBox "mallory" "x" _
                  aliceSession eq_refl
                  ltac:(discriminate) ltac:(discriminate))).
Defined.

(** X15: the first request of alice makes her transporter. *)
Lemma middleware_passes_witness :
  Auth.transporter
    (snd (fst (Auth.authMiddleware Auth.sampleConnect Auth.sampleEnded
                 Auth.sampleClosedBox (Some ("alice", "secret"))
                 Auth.initial)))
  = Some (Auth.transport "alice" "secret").
Proof.
  destruct (middleware_passes Auth.sampleConnect Auth.sampleEnded
              Auth.sampleClosedBox (Some ("alice", "secret")) Auth.initial
              "alice" "secret" eq_refl)
    as (_ & _ & _ & _ & _ & _ & Ht).
  exact (proj1 (Ht eq_refl)).
Defined.

(** X16: a wrong pass: the middleware is rejected and the session stays
    empty. *)
Lemma middleware_rejected_witness :
  snd (fst (Auth.authMiddleware Auth.sampleConnect Auth.sampleEnded
              Auth.sampleClosedBox (Some ("alice", "wrong")) Auth.initial))
  = Auth.initial.
Proof.
  exact (proj1 (proj2 (middleware_rejected Auth.sampleConnect
                         Auth.sampleEnded Auth.sampleClosedBox
                         (Some ("alice", "wrong")) Auth.initial
                         (Error "Invalid credentials")) eq_refl)).
Defined.

(** X17: the first request of alice connects with her name and pass. *)
Lemma middleware_calls_witness :
  Auth.imap Auth.initial = None /\
  exists u p,
    Some ("alice", "secret") = Some (u, p) /\
    Auth.imapConfig "alice" "secret" = Auth.imapConfig u p.
Proof.
  destruct (middleware_calls Auth.sampleConnect Auth.sampleEnded
              Auth.sampleClosedBox (Some ("alice", "secret")) Auth.initial
              (Auth.Connect (Auth.imapConfig "alice" "secret"))
              ltac:(cbv; repeat (first [left; reflexivity | right])))
    as (_ & _ & _ & Hc & _).
  exact (Hc _ eq_refl).
Defined.

(** X22: with alice logged in, a mail goes out in the name of mallory. *)
Lemma send_email_as_anyone_witness :
  In (Auth.Send (Auth.transport "alice" "secret")
        {| Auth.o_from := "mallory@localhost"; Auth.o_to := Some "bob";
           Auth.o_subject := Some "hello"; Auth.o_html := None |}
        None)
     (snd (Auth.send_email_route Auth.sampleConnect Auth.sampleEnded
             Auth.sampleClosedBox Auth.sampleSendMail
             (Some ("mallory", "x")) (Some "bob") (Some "hello") None
             aliceSession)).
Proof.
  exact (proj1 (send_email_as_anyone Auth.sampleConnect Auth.sampleEnded
                  Auth.sampleClosedBox Auth.sampleSendMail "mallory" "x"
                  (Some "bob") (Some "hello") None _ _ aliceSession
                  eq_refl eq_refl
                  ltac:(discriminate) ltac:(discriminate))).
Defined.

(** X23: after a mail of alice, her transporter is closed, and a listing and a
    second mail leave it the transporter of the session. *)
Lemma closed_transporter_stays_witness :
  Auth.transporter
    (Auth.serve_all Auth.sampleConnect Auth.sampleEnded
       Auth.sampleClosedBox Auth.sampleSendMail
       [Auth.Mailbox (Some ("alice", "secret")) "authenticated";
        Auth.SendEmail (Some ("alice", "secret")) (Some "bob") None None]
       (snd (fst (Auth.send_email_route Auth.sampleConnect Auth.sampleEnded
                    Auth.sampleClosedBox Auth.sampleSendMail
                    (Some ("alice", "secret")) (Some "bob") None None
                    Auth.initial))))
  = Some (Auth.close (Auth.transport "alice" "secret")).
Proof.
  apply (closed_transporter_stays Auth.sampleConnect Auth.sampleEnded
           Auth.sampleClosedBox Auth.sampleSendMail).
  - reflexivity.
  - reflexivity.
  - intros [H|[H|[]]]; discriminate H.
Defined.

(** X20: after a logout, alice logs in again. *)
Lemma login_after_logout_witness :
  Auth.authMiddleware Auth.sampleConnect Auth.sampleEnded
    Auth.sampleClosedBox (Some ("alice", "secret"))
    (snd (fst (Auth.logout_handler aliceSession)))
  = (Auth.Next "alice" "secret", aliceSession,
     [Auth.ConsoleLog "Connecting to IMAP server";
      Auth.Connect (Auth.imapConfig "alice" "secret");
      Auth.ConsoleLog "Connection ready.";
      Auth.CreateTransport (Auth.transport "alice" "secret")]).
Proof.
  exact (proj1 (login_after_logout Auth.sampleConnect Auth.sampleEnded
                  Auth.sampleClosedBox aliceSession "alice" "secret"
                  ltac:(discriminate) ltac:(discriminate))).
Defined.


(** X8: a deletion whose expunge fails ends with an exception. *)
Lemma delete_email_answers_witness :
  In Exception
     (fst (deleteMessage storeClient 1
             (failingState [("Trash", fresh 2 0)] 3))).
Proof.
  destruct (delete_email_answers storeClient 1
              (failingState [("Trash", fresh 2 0)] 3))
    as [(first & later & _ & _ & _ & HE & HX & _) _].
  apply HX, HE. exists (Error "failure").
  cbv. repeat (first [left; reflexivity | right]).
Defined.
